(** * Structure Name Parsing (TG-263): a shallow embedding

    The Python module [structure_name_parsing.py] classifies radiotherapy
    structure names with regular expressions and normalises dose strings.
    This development embeds the parts of that module the properties below
    are about:

    - the Python values the test helpers return ([~] on a [bool]);
    - [to_cgy], with IEEE binary64 arithmetic taken from [SpecFloat];
    - the backtracking semantics of the [re] patterns (ordered alternation,
      greedy and lazy repetition, named groups, a negative look-ahead and the
      two anchors), and every pattern of the module written with it;
    - the per-name path through the classification loop, the dose join, the
      reduction steps of [extract_name_group] and the [Unmatched] update. *)

From Stdlib Require Import ZArith Ascii String List Bool Lia.
From Stdlib Require Import SpecFloat.
From stdpp Require Import base option gmap strings.

Local Open Scope stdpp_scope.

(* ===================================================================== *)
(** * Python values and text helpers *)
(* ===================================================================== *)

(** What the test helpers can return: a [bool], or the [int] that [~]
    makes of one. *)
Inductive pyobj : Type :=
| PyBool (b : bool)
| PyInt (z : Z).

(** [~v]: [bool] is a subclass of [int], so [~True] is [-2] and [~False]
    is [-1]. *)
Definition py_invert (v : pyobj) : pyobj :=
  match v with
  | PyBool b => PyInt (- Z.b2z b - 1)
  | PyInt z => PyInt (- z - 1)
  end.

(** Truth value testing, as [if v:] does it. *)
Definition truthy (v : pyobj) : bool :=
  match v with
  | PyBool b => b
  | PyInt z => negb (z =? 0)%Z
  end.

Fixpoint mem_ascii (c : ascii) (s : string) : bool :=
  match s with
  | EmptyString => false
  | String d s' => Ascii.eqb c d || mem_ascii c s'
  end.

Definition in_range (lo hi : ascii) (c : ascii) : bool :=
  (nat_of_ascii lo <=? nat_of_ascii c) && (nat_of_ascii c <=? nat_of_ascii hi).

(** [str.lower()] on the characters the standard uses. *)
Definition lower_ascii (c : ascii) : ascii :=
  if in_range "A" "Z" c then ascii_of_nat (nat_of_ascii c + 32) else c.

Fixpoint lower_str (s : string) : string :=
  match s with
  | EmptyString => EmptyString
  | String c s' => String (lower_ascii c) (lower_str s')
  end.

(** [s.replace(a, b)] for one-character [a] and [b]. *)
Fixpoint replace_char (a b : ascii) (s : string) : string :=
  match s with
  | EmptyString => EmptyString
  | String c s' => String (if Ascii.eqb c a then b else c) (replace_char a b s')
  end.

(** [s.split(c, 1)]: the text before the first [c], and the text after it
    when there is one. *)
Fixpoint split_once (c : ascii) (s : string) : string * option string :=
  match s with
  | EmptyString => (EmptyString, None)
  | String d s' =>
      if Ascii.eqb d c then (EmptyString, Some s')
      else let '(a, b) := split_once c s' in (String d a, b)
  end.

(** [s.endswith(suffix)]. *)
Definition endswith (s suffix : string) : bool :=
  let n := String.length s in
  let m := String.length suffix in
  (m <=? n) && String.eqb (substring (n - m) m s) suffix.

(** [s[:-2]]. *)
Definition drop_last2 (s : string) : string :=
  substring 0 (String.length s - 2) s.

(* ===================================================================== *)
(** * Numbers: [int()], [float()] and binary64 arithmetic *)
(* ===================================================================== *)

(** A Python [float] is an IEEE binary64. *)
Abbreviation float := spec_float.

Definition prec : Z := 53.
Definition emax : Z := 1024.

Definition fmul : float -> float -> float := SFmul prec emax.

(** The binary64 nearest to an integer (ties to even). *)
Definition float_of_Z (z : Z) : float := binary_normalize prec emax z 0 false.

(** The binary64 nearest to [n / d] (ties to even), which is what the
    correctly rounded [float()] returns for a decimal literal. *)
Definition float_of_ratio (neg : bool) (n d : positive) : float :=
  SFdiv prec emax (S754_finite neg n 0) (S754_finite false d 0).

(** [int] to [float] where arithmetic mixes them: [OverflowError] (here
    [None]) when the integer is beyond the binary64 range. *)
Definition float_of_int (z : Z) : option float :=
  match float_of_Z z with
  | S754_infinity _ => None
  | f => Some f
  end.

(** White space that [int()] and [float()] strip, among the first 256
    code points. *)
Definition is_space (c : ascii) : bool :=
  let n := nat_of_ascii c in
  ((9 <=? n) && (n <=? 13)) || ((28 <=? n) && (n <=? 32))
  || (n =? 133) || (n =? 160).

Fixpoint lstrip (s : string) : string :=
  match s with
  | EmptyString => EmptyString
  | String c s' => if is_space c then lstrip s' else s
  end.

Fixpoint rev_str (s acc : string) : string :=
  match s with
  | EmptyString => acc
  | String c s' => rev_str s' (String c acc)
  end.

Definition strip (s : string) : string :=
  rev_str (lstrip (rev_str (lstrip s) EmptyString)) EmptyString.

Definition digit_val (c : ascii) : option Z :=
  if in_range "0" "9" c then Some (Z.of_nat (nat_of_ascii c - 48)) else None.

(** The rest of a [digitpart] ([digit (["_"] digit)*]) after its first
    digit: the value so far, the number of digits read, and the text left. *)
Fixpoint digits_rest (s : string) (acc : Z) (n : nat) : Z * nat * string :=
  match s with
  | EmptyString => (acc, n, s)
  | String c s' =>
      match digit_val c with
      | Some d => digits_rest s' (10 * acc + d)%Z (S n)
      | None =>
          if Ascii.eqb c "_" then
            match s' with
            | String c2 s2 =>
                match digit_val c2 with
                | Some d => digits_rest s2 (10 * acc + d)%Z (S n)
                | None => (acc, n, s)
                end
            | EmptyString => (acc, n, s)
            end
          else (acc, n, s)
      end
  end.

(** A [digitpart] read on top of the value [acc]. *)
Definition digitpart_from (acc : Z) (s : string) : option (Z * nat * string) :=
  match s with
  | String c s' =>
      match digit_val c with
      | Some d => Some (digits_rest s' (10 * acc + d)%Z 1)
      | None => None
      end
  | EmptyString => None
  end.

Definition digitpart (s : string) : option (Z * nat * string) :=
  digitpart_from 0 s.

(** An optional sign: whether it is a minus, and the text after it. *)
Definition sign_of (s : string) : bool * string :=
  match s with
  | String c s' =>
      if Ascii.eqb c "-" then (true, s')
      else if Ascii.eqb c "+" then (false, s')
      else (false, s)
  | EmptyString => (false, s)
  end.

(** [int(s)] in base ten; [None] is [ValueError]. *)
Definition py_int (s : string) : option Z :=
  let '(neg, u) := sign_of (strip s) in
  match digitpart u with
  | Some (v, _, EmptyString) => Some (if neg then (- v)%Z else v)
  | _ => None
  end.

(** The value [(-1)^neg * m * 10^e], rounded once.  With [m >= 1] the
    value is at least [10^e], beyond the largest binary64 once [e > 310];
    and it is below [10^(e + bits of m)], less than half the smallest
    binary64 once that exponent is under [-330].  Those two cases are
    settled without computing the power of ten. *)
Definition float_of_decimal (neg : bool) (m e : Z) : float :=
  match m with
  | Zpos p =>
      if (310 <? e)%Z then S754_infinity neg
      else if (e + Z.log2_up (Zpos p + 1) <? -330)%Z then S754_zero neg
      else
        match e with
        | Zneg k => float_of_ratio neg p (Pos.pow 10 k)
        | Z0 => float_of_ratio neg p 1
        | Zpos k => float_of_ratio neg (p * Pos.pow 10 k) 1
        end
  | _ => S754_zero neg
  end.

(** [[eE][+-]?digitpart], optional; the exponent and the text left. *)
Definition exponent_of (s : string) : option (Z * string) :=
  match s with
  | String c s' =>
      if Ascii.eqb c "e" || Ascii.eqb c "E" then
        let '(neg, u) := sign_of s' in
        match digitpart u with
        | Some (v, _, rest) => Some (if neg then (- v)%Z else v, rest)
        | None => None
        end
      else Some (0%Z, s)
  | EmptyString => Some (0%Z, s)
  end.

(** The mantissa of a float literal: digits, then an optional point and
    more digits, with a digit on at least one side.  Returns the digits
    read as one integer, how many of them follow the point, and the text
    left. *)
Definition mantissa_of (s : string) : option (Z * nat * string) :=
  match digitpart s with
  | Some (ip, _, String "." after_point) =>
      match digitpart_from ip after_point with
      | Some res => Some res
      | None => Some (ip, O, after_point)
      end
  | Some (ip, _, rest) => Some (ip, O, rest)
  | None =>
      match s with
      | String "." after_point => digitpart_from 0 after_point
      | _ => None
      end
  end.

(** [float(s)]; [None] is [ValueError]. *)
Definition py_float (s : string) : option float :=
  let '(neg, u) := sign_of (strip s) in
  let word := lower_str u in
  if String.eqb word "inf" || String.eqb word "infinity" then
    Some (S754_infinity neg)
  else if String.eqb word "nan" then Some S754_nan
  else
    match mantissa_of u with
    | Some (m, nfrac, rest) =>
        match exponent_of rest with
        | Some (ex, EmptyString) =>
            Some (float_of_decimal neg m (ex - Z.of_nat nfrac))
        | _ => None
        end
    | None => None
    end.

(* ===================================================================== *)
(** * Utility and test functions *)
(* ===================================================================== *)

(** What a cell of the dose columns holds: nothing ([None] or [NaN]), the
    text handed back unchanged, or a number. *)
Inductive dose_value : Type :=
| DoseMissing
| DoseText (s : string)
| DoseNumber (f : float).

(** [dose_dict], the mapping [to_cgy] wraps in a [pd.Series]. *)
Record dose_dict : Type := mk_dose {
  TotalDose : dose_value;
  Fractions : option Z
}.

(** A call either returns or raises the one exception no [except] clause
    of the module catches. *)
Inductive outcome (A : Type) : Type :=
| Returns (a : A)
| OverflowError.
Arguments Returns {A} a.
Arguments OverflowError {A}.

(** The dose part of the text, lines 102 to 114: a trailing [Gy] is
    dropped and the number scaled to cGy; [None] is the [ValueError]
    either [float()] call can raise. *)
Definition dose_of (dose_str : string) : option float :=
  if endswith dose_str "Gy" then
    match py_float (drop_last2 dose_str) with
    | Some dose => Some (fmul dose (float_of_Z 100))
    | None => None
    end
  else py_float dose_str.

(** [to_cgy(text)].  [text = None] is a cell with no string in it: [None]
    is falsy, and [NaN] has no [replace], so both come back unchanged. *)
Definition to_cgy (text : option string) : outcome dose_dict :=
  match text with
  | None => Returns (mk_dose DoseMissing None)
  | Some t =>
      let unchanged := Returns (mk_dose (DoseText t) None) in
      if String.eqb t "" then unchanged
      else
        let text_cnv1 := replace_char "p" "." t in
        let '(dose_str, after_x) := split_once "x" text_cnv1 in
        let found :=
          match after_x with
          | Some part =>
              match py_int part with
              | Some n => Some (Some n)
              | None => None
              end
          | None => Some None
          end in
        match found with
        | None => unchanged
        | Some fractions =>
            match dose_of dose_str with
            | None => unchanged
            | Some dose =>
                match fractions with
                | Some n =>
                    if (n =? 0)%Z then Returns (mk_dose (DoseNumber dose) fractions)
                    else
                      match float_of_int n with
                      | Some fn =>
                          Returns (mk_dose (DoseNumber (fmul dose fn)) fractions)
                      | None => OverflowError
                      end
                | None => Returns (mk_dose (DoseNumber dose) fractions)
                end
            end
        end
  end.

(** [valid_length(text, max_length=16)]. *)
Definition valid_length (text : string) (max_length : nat) : bool :=
  String.length text <=? max_length.

(** [no_spaces(text)]: [~has_space]. *)
Definition no_spaces (text : string) : pyobj :=
  let has_space := mem_ascii " " text in
  py_invert (PyBool has_space).

(** [no_dup(structures)]: [~has_dup]. *)
Definition no_dup (structures : list string) : pyobj :=
  let unique_structures : gset string := list_to_set (lower_str <$> structures) in
  let has_dup := size unique_structures <? length structures in
  py_invert (PyBool has_dup).

(** [not_evaluated(text)]; [None] is the [IndexError] of [text[0]] on the
    empty string. *)
Definition not_evaluated (text : string) : option bool :=
  let exclude_prefixes := ["Z"; "_"] in
  match text with
  | String c _ => Some (bool_decide (String c EmptyString ∈ exclude_prefixes))
  | EmptyString => None
  end.

(* ===================================================================== *)
(** * Regular expressions, as [re] runs them *)
(* ===================================================================== *)

(** The constructs the module's patterns use.  [Rep greedy lo hi r] covers
    [r*], [r+], [r?], [r{lo,hi}] and the lazy [r*?]; [hi = None] is an
    unbounded repeat.  [Cap name r] is [(?P<name>r)].  Plain parentheses
    only group: numbered groups never reach [groupdict()]. *)
Inductive regex : Type :=
| Eps
| Cls (p : ascii -> bool)
| Cat (r1 r2 : regex)
| Alt (r1 r2 : regex)
| Rep (greedy : bool) (lo : nat) (hi : option nat) (r : regex)
| Cap (name : string) (r : regex)
| NotAhead (r : regex)
| Bol
| Eol.

(** [groupdict()]: a group that took no part in the match is absent
    ([None] in Python). *)
Abbreviation groups := (gmap string string).

Definition LF : ascii := Ascii.ascii_of_nat 10.

Definition below (count : nat) (hi : option nat) : bool :=
  match hi with
  | None => true
  | Some h => count <? h
  end.

Definition same_place (last : option nat) (here : nat) : bool :=
  match last with
  | None => false
  | Some p => p =? here
  end.

(** What is left of the pattern after a construct: it receives the text
    still to read and the groups so far, and [None] from it means that the
    rest of the pattern failed there. *)
Abbreviation cont := (string -> groups -> option groups).

Section Repeat.

(** One round of the repeated item, and what follows the repeat. *)
Variable item : string -> groups -> cont -> option groups.
Variables (greedy : bool) (lo : nat) (hi : option nat) (k : cont).

(** The repeat, after [SRE_OP_MAX_UNTIL] and [SRE_OP_MIN_UNTIL]: [lo]
    compulsory rounds, then optional rounds while the bound allows one
    and the previous optional round did not start at this very place
    ([last]).  A greedy repeat tries one more round before it tries what
    follows; a lazy repeat tries what follows first.  [fuel] bounds the
    number of rounds. *)
Fixpoint rep_loop (fuel count : nat) (last : option nat) (s : string)
    (e : groups) {struct fuel} : option groups :=
  match fuel with
  | O => None
  | S fuel' =>
      let round last' :=
        item s e (fun s1 e1 => rep_loop fuel' (S count) last' s1 e1) in
      if count <? lo then round last
      else
        let more :=
          below count hi && negb (same_place last (String.length s)) in
        if greedy then
          if more then
            match round (Some (String.length s)) with
            | Some res => Some res
            | None => k s e
            end
          else k s e
        else
          match k s e with
          | Some res => Some res
          | None => if more then round (Some (String.length s)) else None
          end
  end.

End Repeat.

Section Matcher.

(** Length of the subject string: a position is the text still to read,
    so the start of the subject is where that text has this length. *)
Variable n0 : nat.

(** The matcher in continuation-passing style: a [None] from [k] makes
    the construct try its next choice, which is how [re] backtracks, and
    the groups set on an abandoned path are forgotten with it. *)
Fixpoint run (r : regex) (s : string) (e : groups) (k : cont)
    {struct r} : option groups :=
  match r with
  | Eps => k s e
  | Cls p =>
      match s with
      | String c s' => if p c then k s' e else None
      | EmptyString => None
      end
  | Cat r1 r2 => run r1 s e (fun s1 e1 => run r2 s1 e1 k)
  | Alt r1 r2 =>
      match run r1 s e k with
      | Some res => Some res
      | None => run r2 s e k
      end
  | Rep greedy lo hi r1 =>
      rep_loop (run r1) greedy lo hi k (lo + String.length s + 3) 0 None s e
  | Cap name r1 =>
      run r1 s e (fun s1 e1 =>
        k s1 (<[name := substring 0 (String.length s - String.length s1) s]> e1))
  | NotAhead r1 =>
      match run r1 s e (fun _ e1 => Some e1) with
      | Some _ => None
      | None => k s e
      end
  | Bol => if String.length s =? n0 then k s e else None
  | Eol =>
      match s with
      | EmptyString => k s e
      | String c EmptyString => if Ascii.eqb c LF then k s e else None
      | _ => None
      end
  end.

End Matcher.

(** What follows the whole pattern under [fullmatch]: the match stands
    only when no text is left. *)
Definition end_of_name : cont :=
  fun s e => match s with EmptyString => Some e | _ => None end.

(** [Pattern.fullmatch]: the whole subject, up to its very end. *)
Definition fullmatch (r : regex) (w : string) : option groups :=
  run (String.length w) r w ∅ end_of_name.

(** [drop n w]: [w[n:]]. *)
Fixpoint drop_str (n : nat) (w : string) : string :=
  match n, w with
  | O, _ => w
  | S n', String _ w' => drop_str n' w'
  | S _, EmptyString => EmptyString
  end.

(** [Pattern.search]: the first start position, left to right, at which
    the pattern matches. *)
Fixpoint search_from (r : regex) (w : string) (tries start : nat) : option groups :=
  match tries with
  | O => None
  | S tries' =>
      match run (String.length w) r (drop_str start w) ∅ (fun _ e => Some e) with
      | Some res => Some res
      | None => search_from r w tries' (S start)
      end
  end.

Definition search (r : regex) (w : string) : option groups :=
  search_from r w (S (String.length w)) 0.

(** ** Pattern syntax *)

Definition chr (c : ascii) : regex := Cls (Ascii.eqb c).

Fixpoint lit (s : string) : regex :=
  match s with
  | EmptyString => Eps
  | String c EmptyString => chr c
  | String c s' => Cat (chr c) (lit s')
  end.

(** [[abc]] and [[^abc]]. *)
Definition oneof (s : string) : regex := Cls (fun c => mem_ascii c s).
Definition noneof (s : string) : regex := Cls (fun c => negb (mem_ascii c s)).

Definition upper : regex := Cls (in_range "A" "Z").
Definition lower : regex := Cls (in_range "a" "z").
Definition digit : regex := Cls (in_range "0" "9").

(** [.]: anything but a line feed (no DOTALL flag in the module). *)
Definition dot : regex := Cls (fun c => negb (Ascii.eqb c LF)).

Definition star (r : regex) : regex := Rep true 0 None r.
Definition lazy_star (r : regex) : regex := Rep false 0 None r.
Definition plus (r : regex) : regex := Rep true 1 None r.
Definition opt (r : regex) : regex := Rep true 0 (Some 1) r.
Definition times (lo hi : nat) (r : regex) : regex := Rep true lo (Some hi) r.

Fixpoint seq (rs : list regex) : regex :=
  match rs with
  | [] => Eps
  | [r] => r
  | r :: rs' => Cat r (seq rs')
  end.

Fixpoint alts (rs : list regex) : regex :=
  match rs with
  | [] => NotAhead Eps
  | [r] => r
  | r :: rs' => Alt r (alts rs')
  end.

(* ===================================================================== *)
(** * The patterns of the module *)
(* ===================================================================== *)

(** ** Non-evaluated nomenclature *)

(** [(?P<NotEvalChar>[zZ_])(?P<NotEvaluated>.* )] *)
Definition not_evaluated_pat : regex :=
  seq [ Cap "NotEvalChar" (oneof "zZ_");
        Cap "NotEvaluated" (star dot) ].

(** ** Non-target nomenclature *)

(** [([A-Z]([A-Z]+|[a-z]+)?[si]?[~]?[0-9]{0,2}_?\^?)] *)
Definition basic_sub_structure_pat : regex :=
  seq [ upper;
        opt (Alt (plus upper) (plus lower));
        opt (oneof "si");
        opt (chr "~");
        times 0 2 digit;
        opt (chr "_");
        opt (chr "^") ].

(** [(?P<StructureName>((sub))+)] *)
Definition basic_structure_pat : regex :=
  Cap "StructureName" (plus basic_sub_structure_pat).

(** The category table; the pattern below is written separately from it. *)
Definition category_def : list (string * string) :=
  [ ("A", "artery"); ("V", "vein"); ("LN", "lymph node");
    ("CN", "cranial nerve"); ("Glnd", "glandular structure");
    ("Bone", "bone"); ("Musc", "muscle"); ("Spc", "Space");
    ("VB", "vertebral body"); ("Sinus", "sinus") ].

(** [_(?P<Remainder>.* )], optional: the tail shared by several rules. *)
Definition rest_pat : regex :=
  opt (seq [ chr "_"; Cap "Remainder" (star dot) ]).

(** [^(?P<StructureCategory>(?:A|V|LN|CN|Glnd|Bone|Musc|VB|Sinus)
      (?P<Pleural>[si])?)(?:_(?P<Remainder>.* ))?$] *)
Definition major_category_pat : regex :=
  seq [ Bol;
        Cap "StructureCategory"
          (seq [ alts [ lit "A"; lit "V"; lit "LN"; lit "CN"; lit "Glnd";
                        lit "Bone"; lit "Musc"; lit "VB"; lit "Sinus" ];
                 opt (Cap "Pleural" (oneof "si")) ]);
        rest_pat;
        Eol ].

(** [^(?P<Remainder>[^^]* )(?:(?:\^)(?P<CustomStructure>.+))?] *)
Definition custom_oar_qualifier_pat : regex :=
  seq [ Bol;
        Cap "Remainder" (star (noneof "^"));
        opt (seq [ chr "^"; Cap "CustomStructure" (plus dot) ]) ].

Definition vertebrae_level : list (string * string) :=
  [ ("C", "Cervical"); ("T", "Thoracic"); ("L", "Lumbar"); ("S", "Sacral") ].

(** [^(?P<VertebraeLevel>[CTLS])(?P<VertebraeNumber>[0-9]{0,2})
      (?:_(?P<Remainder>.* ))?$] *)
Definition vb_ref_pat : regex :=
  seq [ Bol;
        Cap "VertebraeLevel" (oneof "CTLS");
        Cap "VertebraeNumber" (times 0 2 digit);
        rest_pat;
        Eol ].

(** [^(?P<NerveLevel>[IVX]+)(?:_(?P<Remainder>.* ))?$] *)
Definition cn_ref_pat : regex :=
  seq [ Bol;
        Cap "NerveLevel" (plus (oneof "IVX"));
        rest_pat;
        Eol ].

(** [^(?P<NeckNode>Neck)_(?P<NodeLevel>[IVX]+[AB]?)(?:_(?P<Remainder>.* ))?$] *)
Definition nn_ref_pat : regex :=
  seq [ Bol;
        Cap "NeckNode" (lit "Neck");
        chr "_";
        Cap "NodeLevel" (seq [ plus (oneof "IVX"); opt (oneof "AB") ]);
        rest_pat;
        Eol ].

(** The spatial table; the pattern below is written separately from it. *)
Definition spatial_def : list (string * string) :=
  [ ("L", "left"); ("R", "Right"); ("A", "Anterior"); ("P", "Posterior");
    ("I", "Inferior"); ("S", "Superior"); ("RUL", "Right Upper lobe");
    ("RLL", "Right Lower lobe"); ("RML", "Right middle lobe");
    ("LUL", "Left Upper lobe"); ("LLL", "LeftLower lobe");
    ("NAdj", "non-adjacent"); ("Dist", "distal"); ("Prox", "proximal") ].

(** [^(?:(?P<Remainder>.*?)_)?(?P<SpatialIndicator>
      (?:L|R|A|P|I|S|NAdj|Dist|Prox|RUL|RLL|LUL|LLL)+)$] *)
Definition spatial_pat : regex :=
  seq [ Bol;
        opt (seq [ Cap "Remainder" (lazy_star dot); chr "_" ]);
        Cap "SpatialIndicator"
          (plus (alts [ lit "L"; lit "R"; lit "A"; lit "P"; lit "I"; lit "S";
                        lit "NAdj"; lit "Dist"; lit "Prox";
                        lit "RUL"; lit "RLL"; lit "LUL"; lit "LLL" ]));
        Eol ].

(** [^(?P<Remainder>.*?)_?(?P<Prv>PRV(?P<PrvSize>[0-9]{1,2})?)$] *)
Definition prv_pat : regex :=
  seq [ Bol;
        Cap "Remainder" (lazy_star dot);
        opt (chr "_");
        Cap "Prv" (seq [ lit "PRV"; opt (Cap "PrvSize" (times 1 2 digit)) ]);
        Eol ].

(** [^(?P<Remainder>.*?)(?P<Partial>~)$] *)
Definition partial_pat : regex :=
  seq [ Bol;
        Cap "Remainder" (lazy_star dot);
        Cap "Partial" (chr "~");
        Eol ].

(** [[A-Z](?:[A-Z]+|[a-z]+)] *)
Definition word_pat : regex :=
  seq [ upper; Alt (plus upper) (plus lower) ].

(** [^(?P<BaseStructure>(?:[A-Z](?:[A-Z]+|[a-z]+)){1,2}(?P<Pleural>[si])?)
      (?:_(?P<StructureQualifier>[A-Z](?:[A-Z]+|[a-z]+))
        |(?:_?(?P<StructureNumber>[A-Z]?[0-9]+)))*
      (?P<Remainder>.* )$] *)
Definition base_structure_pat : regex :=
  seq [ Bol;
        Cap "BaseStructure"
          (seq [ times 1 2 word_pat; opt (Cap "Pleural" (oneof "si")) ]);
        star (Alt (seq [ chr "_"; Cap "StructureQualifier" word_pat ])
                  (seq [ opt (chr "_");
                         Cap "StructureNumber" (seq [ opt upper; plus digit ]) ]));
        Cap "Remainder" (star dot);
        Eol ].

(** ** Target nomenclature *)

Definition target_type_def : list (string * string) :=
  [ ("GTV", "Gross Target Volume"); ("CTV", "Clinical Target Volume");
    ("PTV", "Planning Target Volume"); ("ITV", "Internal Target Volume");
    ("IGTV", "Internal Gross Target Volume");
    ("ICTV", "Internal Clinical Target Volume");
    ("PTV!", "Partial Planning Target Volume") ].

(** [(GTV|CTV|PTV|ITV|IGTV|ICTV|PTV!)] *)
Definition target_type_pat : regex :=
  alts [ lit "GTV"; lit "CTV"; lit "PTV"; lit "ITV"; lit "IGTV"; lit "ICTV";
         lit "PTV!" ].

(** [(par|vas|sb|n|p|v)?] *)
Definition target_classifier_pat : regex :=
  opt (alts [ lit "par"; lit "vas"; lit "sb"; lit "n"; lit "p"; lit "v" ]).

(** [([0-9]{1,2})?] *)
Definition target_number_pat : regex :=
  opt (times 1 2 digit).

(** [(?P<BaseTarget>(?P<TargetType>..)(?P<TargetClassifier>..)?
      (?P<TargetNumber>..)?)] *)
Definition base_target_pat : regex :=
  Cap "BaseTarget"
    (seq [ Cap "TargetType" target_type_pat;
           opt (Cap "TargetClassifier" target_classifier_pat);
           opt (Cap "TargetNumber" target_number_pat) ]).

(** [((?:_)(?P<Modality>((CT|PT|MR|US|SP)[0-9]{0,2}){1,2}))?] *)
Definition modality_pat : regex :=
  opt (seq [ chr "_";
             Cap "Modality"
               (times 1 2
                  (seq [ alts [ lit "CT"; lit "PT"; lit "MR"; lit "US"; lit "SP" ];
                         times 0 2 digit ])) ]).

(** [((?:_)(?!Hig|Mid|Low)(?P<StructureIndicator>((sub))+))?] *)
Definition struct_ind_pat : regex :=
  opt (seq [ chr "_";
             NotAhead (alts [ lit "Hig"; lit "Mid"; lit "Low" ]);
             Cap "StructureIndicator" (plus basic_sub_structure_pat) ]).

(** [(?P<ExternalCrop>(?P<Sign>-)(?P<Size>[0-9]{2}))?]: the binding of
    [target_crop_pat] in force when [target_pattern] is built. *)
Definition target_crop_pat : regex :=
  opt (Cap "ExternalCrop"
         (seq [ Cap "Sign" (chr "-"); Cap "Size" (times 2 2 digit) ])).

(** [(?P<RelativeDose>High|Low|Mid(?P<RelativeDoseLevel>[0-9]{2})?)] *)
Definition rel_dose_pat : regex :=
  Cap "RelativeDose"
    (alts [ lit "High";
            lit "Low";
            seq [ lit "Mid"; opt (Cap "RelativeDoseLevel" (times 2 2 digit)) ] ]).

(** [(?P<NumericDose>[0-9]+[.p]?[0-9]*[Gy]* )] *)
Definition numeric_dose_pat : regex :=
  Cap "NumericDose"
    (seq [ plus digit; opt (oneof ".p"); star digit; star (oneof "Gy") ]).

(** [(?P<DoseFractionation>[0-9]+[.p]?[0-9]*[Gy]*x[0-9]+)] *)
Definition dose_fraction_pat : regex :=
  Cap "DoseFractionation"
    (seq [ plus digit; opt (oneof ".p"); star digit; star (oneof "Gy");
           chr "x"; plus digit ]).

(** [((?:_)(?P<DoseSpecifier>rel|fraction|numeric))?] *)
Definition dose_specifier : regex :=
  opt (seq [ chr "_";
             Cap "DoseSpecifier"
               (alts [ rel_dose_pat; dose_fraction_pat; numeric_dose_pat ]) ]).

(** [((?:\^)(?P<CustomTarget>.+))?] *)
Definition target_custom_qualifier_pat : regex :=
  opt (seq [ chr "^"; Cap "CustomTarget" (plus dot) ]).

Definition target_pattern : regex :=
  seq [ base_target_pat; modality_pat; struct_ind_pat; dose_specifier;
        target_crop_pat; target_custom_qualifier_pat ].

(** ** Cropped organs at risk *)

(** [(?P<CroppedOAR>((sub))+)] *)
Definition cropped_oar_pat : regex :=
  Cap "CroppedOAR" (plus basic_sub_structure_pat).

(** [(?P<TargetCrop>type(classifier)?(number)?)]: the module binds
    [target_crop_pat] a second time for this one. *)
Definition target_crop_pat_2 : regex :=
  Cap "TargetCrop"
    (seq [ target_type_pat; opt target_classifier_pat; opt target_number_pat ]).

(** [(?P<OARCrop>cropped-target)] *)
Definition oar_crop_pat : regex :=
  Cap "OARCrop" (seq [ cropped_oar_pat; chr "-"; target_crop_pat_2 ]).

(** ** All patterns combined *)

Definition all_structure_pattern : regex :=
  alts [ not_evaluated_pat; target_pattern; oar_crop_pat; basic_structure_pat ].

Definition structure_pat : regex := all_structure_pattern.

(* ===================================================================== *)
(** * Applying the patterns to one name *)
(* ===================================================================== *)

(** The named groups of a pattern, in the order their columns come out of
    [str.extract]. *)
Fixpoint group_names (r : regex) : list string :=
  match r with
  | Cat r1 r2 | Alt r1 r2 => group_names r1 ++ group_names r2
  | Rep _ _ _ r1 | NotAhead r1 => group_names r1
  | Cap name r1 => name :: group_names r1
  | _ => []
  end.

(** The row of one name in [matched_structures] after the loop over the
    examples: its [groupdict()], empty when [fullmatch] found nothing. *)
Definition classify (structure : string) : groups :=
  match fullmatch structure_pat structure with
  | Some mtch => mtch
  | None => ∅
  end.

(** The row of one name in the [names] table: the columns the table has
    and the cells of this row that are not [NaN]. *)
Record names_row : Type := mk_names {
  columns : list string;
  cells : groups
}.

(** [extract_name_group(names, re_pattern, match_column, idx)] on one row.
    [idx] tells whether the row is selected.  The merge keeps a column of
    [names] whose name the pattern reuses and gives the new one the suffix
    [_ex]; [Remainder] is replaced when [match_column] is present. *)
Definition extract_name_group (names : names_row) (re_pattern : regex)
    (match_column : string) (idx : bool) : names_row :=
  let extr_names : groups :=
    if idx then
      match cells names !! "Remainder" with
      | Some text => default ∅ (search re_pattern text)
      | None => ∅
      end
    else ∅ in
  let merged_name (g : string) : string :=
    if bool_decide (g ∈ columns names) then g +:+ "_ex" else g in
  let merged : groups :=
    foldr (fun g acc =>
             match extr_names !! g with
             | Some v => <[merged_name g := v]> acc
             | None => acc
             end) (cells names) (group_names re_pattern) in
  let nt_idx := bool_decide (merged !! match_column = None) in
  let remainder := if nt_idx then merged !! "Remainder" else merged !! "Remainder_ex" in
  let updated : groups :=
    match remainder with
    | Some text => <["Remainder" := text]> merged
    | None => delete "Remainder" merged
    end in
  mk_names
    (filter (fun c => c ≠ "Remainder_ex")
            (columns names ++ (merged_name <$> group_names re_pattern)))
    (delete "Remainder_ex" updated).

(** Whether a rule finds a match in a text. *)
Definition fires (re_pattern : regex) (text : string) : bool :=
  match search re_pattern text with
  | Some _ => true
  | None => false
  end.

(** The row a non-target name starts with: [Remainder] is the whole name. *)
Definition initial_names (structure_name : string) : names_row :=
  mk_names ["StructureName"; "Unmatched"; "Remainder"]
           (<["Remainder" := structure_name]>
              (<["StructureName" := structure_name]> ∅)).

(** The sequence of parsing rules applied to a non-target name. *)
Definition parse_non_target (structure_name : string) : names_row :=
  let names := initial_names structure_name in
  let names := extract_name_group names major_category_pat "StructureCategory" true in
  let names := extract_name_group names custom_oar_qualifier_pat "CustomStructure" true in
  let is_vb := bool_decide (cells names !! "StructureCategory" = Some "VB") in
  let names := extract_name_group names vb_ref_pat "VertebraeLevel" is_vb in
  let is_cn := bool_decide (cells names !! "StructureCategory" = Some "CN") in
  let names := extract_name_group names cn_ref_pat "NerveLevel" is_cn in
  let is_ln := bool_decide (cells names !! "StructureCategory" = Some "LN") in
  let names := extract_name_group names nn_ref_pat "NeckNode" is_ln in
  let names := extract_name_group names spatial_pat "SpatialIndicator" true in
  let names := extract_name_group names prv_pat "Prv" true in
  let names := extract_name_group names partial_pat "Partial" true in
  let names := extract_name_group names base_structure_pat "BaseStructure" true in
  names.

(** The finished row of one name in [matched_structures]. *)
Record parsed : Type := mk_parsed {
  matched : groups;
  dose : dose_dict;
  non_target : option names_row;
  Unmatched : bool
}.

Definition is_missing (v : dose_value) : bool :=
  match v with
  | DoseMissing => true
  | _ => false
  end.

(** The final [Remainder] cell of the row; [None] is [NaN]. *)
Definition final_remainder (p : parsed) : option string :=
  match non_target p with
  | Some names => cells names !! "Remainder"
  | None => None
  end.

(** The script from the classification loop to the [Unmatched] update, for
    one name.  [unmatched_idx] is the row with nothing but missing cells,
    [Um2] the row with text left in [Remainder] (a missing [Remainder]
    compares false and [fillna] keeps it so), and the in-place [where]
    sets [Unmatched] on the rows of [Um2], as it does on the column of the
    table in the pandas the script was written for. *)
Definition parse_structure (structure : string) : outcome parsed :=
  let mtch_dict := classify structure in
  match to_cgy (mtch_dict !! "DoseSpecifier") with
  | OverflowError => OverflowError
  | Returns dose_values =>
      let unmatched_idx :=
        bool_decide (mtch_dict = ∅)
        && is_missing (TotalDose dose_values)
        && bool_decide (Fractions dose_values = None) in
      let names :=
        match mtch_dict !! "StructureName" with
        | Some structure_name => Some (parse_non_target structure_name)
        | None => None
        end in
      let Um2 :=
        match names with
        | Some row =>
            match cells row !! "Remainder" with
            | Some text => 0 <? String.length text
            | None => false
            end
        | None => false
        end in
      Returns (mk_parsed mtch_dict dose_values names
                 (if Um2 then true else unmatched_idx))
  end.

(* ===================================================================== *)
(** * What a pattern can match *)
(* ===================================================================== *)

(** [parses r c e e']: the pattern [r] can match the text [c], taking the
    groups from [e] to [e'].  This is every way [r] can match, in no
    order; the anchors and the look-ahead read no text and are not
    constrained here.  [run] only ever returns one of these ways
    ([run_sound] below), so what holds of all of them holds of its result. *)
Inductive parses : regex -> string -> groups -> groups -> Prop :=
| parses_eps e : parses Eps "" e e
| parses_cls p c e : p c = true -> parses (Cls p) (String c "") e e
| parses_cat r1 r2 c1 c2 e e1 e2 :
    parses r1 c1 e e1 -> parses r2 c2 e1 e2 ->
    parses (Cat r1 r2) (c1 +:+ c2) e e2
| parses_alt_l r1 r2 c e e' : parses r1 c e e' -> parses (Alt r1 r2) c e e'
| parses_alt_r r1 r2 c e e' : parses r2 c e e' -> parses (Alt r1 r2) c e e'
| parses_rep_stop g hi r e : parses (Rep g 0 hi r) "" e e
| parses_rep_round g lo hi r c1 c2 e e1 e2 :
    (0 <? lo) || below 0 hi = true ->
    parses r c1 e e1 ->
    parses (Rep g (pred lo) (pred <$> hi) r) c2 e1 e2 ->
    parses (Rep g lo hi r) (c1 +:+ c2) e e2
| parses_cap name r c e e' :
    parses r c e e' -> parses (Cap name r) c e (<[name := c]> e')
| parses_notahead r e : parses (NotAhead r) "" e e
| parses_bol e : parses Bol "" e e
| parses_eol e : parses Eol "" e e.

(** A matcher for [r] is sound when each of its results is one of the
    ways [r] can match a prefix of the text, followed by a result of the
    continuation on the rest. *)
Definition item_sound (r : regex)
    (item : string -> groups -> cont -> option groups) : Prop :=
  forall s e k res, item s e k = Some res ->
    exists c s' e', s = c +:+ s' /\ parses r c e e' /\ k s' e' = Some res.

(** The bound that is left after [count] rounds. *)
Definition less (hi : option nat) (count : nat) : option nat :=
  (fun h => h - count) <$> hi.

(** Whether the pattern has a group of that name. *)
Definition mentions (g : string) (r : regex) : bool :=
  existsb (String.eqb g) (group_names r).

(** Whether the pattern may match the empty text. *)
Fixpoint nullable (r : regex) : bool :=
  match r with
  | Cls _ => false
  | Cat r1 r2 => nullable r1 && nullable r2
  | Alt r1 r2 => nullable r1 || nullable r2
  | Rep _ lo _ r1 => (lo =? 0) || nullable r1
  | Cap _ r1 => nullable r1
  | _ => true
  end.

Definition all_ascii : list ascii := List.map ascii_of_nat (List.seq 0 256).

(** [p] holds of no character that [q] does not hold of. *)
Definition implies (p q : ascii -> bool) : bool :=
  forallb (fun a => implb (p a) (q a)) all_ascii.

(** Every text the pattern matches is non-empty and starts with a
    character of [P]. *)
Fixpoint starts (P : ascii -> bool) (r : regex) : bool :=
  match r with
  | Cls p => implies p P
  | Cat r1 _ => starts P r1
  | Alt r1 r2 => starts P r1 && starts P r2
  | Rep _ lo _ r1 => (0 <? lo) && starts P r1
  | Cap _ r1 => starts P r1
  | _ => false
  end.

(** Every text the pattern matches is made of characters of [P]. *)
Fixpoint within (P : ascii -> bool) (r : regex) : bool :=
  match r with
  | Cls p => implies p P
  | Cat r1 r2 | Alt r1 r2 => within P r1 && within P r2
  | Rep _ _ _ r1 | Cap _ r1 => within P r1
  | _ => true
  end.

Fixpoint all_chars (P : ascii -> bool) (s : string) : bool :=
  match s with
  | EmptyString => true
  | String c s' => P c && all_chars P s'
  end.

Definition is_not (c : ascii) (a : ascii) : bool := negb (Ascii.eqb a c).

Definition starts_with_any (chars s : string) : bool :=
  match s with
  | String c _ => mem_ascii c chars
  | EmptyString => false
  end.

(** A group is present when it took part in the match with a non-empty
    text. *)
Definition present (m : groups) (g : string) : bool :=
  match m !! g with
  | Some (String _ _) => true
  | _ => false
  end.

(** The group that marks each of the four classes: NotEvaluated, Target,
    CroppedOAR and BasicOAR. *)
Definition class_groups : list string :=
  ["NotEvalChar"; "BaseTarget"; "OARCrop"; "StructureName"].

Definition one_class (m : groups) : Prop :=
  length (List.filter (present m) class_groups) = 1.

(** A matcher only calls its continuation on texts no longer than its own. *)
Definition item_local (item : string -> groups -> cont -> option groups) : Prop :=
  forall s e k k',
    (forall s1 e1, String.length s1 <= String.length s -> k s1 e1 = k' s1 e1) ->
    item s e k = item s e k'.

(** The rounds a repeat may still need, counting the last visit of the
    loop head. *)
Definition rounds_left (lo count : nat) (last : option nat) (s : string) : nat :=
  (lo - count) + String.length s
  + (if same_place last (String.length s) then 1 else 2).

(** Every text the pattern matches is empty or starts with a character of
    [P]. *)
Fixpoint first_in (P : ascii -> bool) (r : regex) : bool :=
  match r with
  | Cls p => implies p P
  | Cat r1 r2 => first_in P r1 && (negb (nullable r1) || first_in P r2)
  | Alt r1 r2 => first_in P r1 && first_in P r2
  | Rep _ _ _ r1 | Cap _ r1 => first_in P r1
  | _ => true
  end.

Definition head_in (p : ascii -> bool) (t : string) : bool :=
  match t with
  | String c _ => p c
  | EmptyString => false
  end.

Definition is_digit : ascii -> bool := in_range "0" "9".

(** [takes n0 r c t e e']: on the text [c] followed by [t], the first way
    [r] matches that the rest of the pattern accepts is to read [c] and
    turn the groups [e] into [e'], whenever the rest accepts [t] then. *)
Definition takes (n0 : nat) (r : regex) (c t : string) (e e' : groups) : Prop :=
  forall k res, k t e' = Some res -> run n0 r (c +:+ t) e k = Some res.

(** [r] cannot match at the start of [s], whatever follows. *)
Definition fails (n0 : nat) (r : regex) (s : string) : Prop :=
  forall e k, run n0 r s e k = None.

(** A dose token with a fraction part, from its pieces. *)
Definition fraction_token (d1 sep d2 g b : string) : string :=
  d1 +:+ sep +:+ d2 +:+ g +:+ "x" +:+ b.

(** The pieces of such a token: digits, an optional decimal mark ([.] or
    [p]) with the digits after it, any run of the unit letters, and after
    the [x] the digits of the fraction count. *)
Definition fraction_parts (d1 sep d2 g b : string) : Prop :=
  d1 <> "" /\ all_chars is_digit d1 = true
  /\ ((sep = "" /\ d2 = "") \/ sep = "." \/ sep = "p")
  /\ all_chars is_digit d2 = true
  /\ all_chars (fun c => mem_ascii c "Gy") g = true
  /\ b <> "" /\ all_chars is_digit b = true.

(* ===================================================================== *)
(** * Properties *)
(* ===================================================================== *)

(** ** Text *)

Lemma app_nil_l_str (b : string) : "" +:+ b = b.
Proof. reflexivity. Qed.

Lemma app_cons_str (x : ascii) (a b : string) :
  String x a +:+ b = String x (a +:+ b).
Proof. reflexivity. Qed.

Lemma length_app (a b : string) :
  String.length (a +:+ b) = String.length a + String.length b.
Proof.
  induction a as [|x a IH]; [reflexivity|].
  rewrite app_cons_str. simpl. now rewrite IH.
Qed.

Lemma app_assoc_str (a b c : string) : (a +:+ b) +:+ c = a +:+ (b +:+ c).
Proof.
  induction a as [|x a IH]; [reflexivity|].
  rewrite !app_cons_str. now rewrite IH.
Qed.

Lemma app_nil_r_str (a : string) : a +:+ "" = a.
Proof.
  induction a as [|x a IH]; [reflexivity|].
  rewrite app_cons_str. now rewrite IH.
Qed.

Lemma app_eq_nil_str (a b : string) : a +:+ b = "" -> a = "".
Proof. destruct a; [reflexivity | discriminate]. Qed.

Lemma substring_app (a b : string) :
  substring 0 (String.length a) (a +:+ b) = a.
Proof.
  induction a as [|x a IH].
  - rewrite app_nil_l_str. now destruct b.
  - rewrite app_cons_str. simpl. now rewrite IH.
Qed.

Lemma captured_text (c s' : string) :
  substring 0 (String.length (c +:+ s') - String.length s') (c +:+ s') = c.
Proof.
  rewrite length_app.
  replace (String.length c + String.length s' - String.length s')
    with (String.length c) by lia.
  apply substring_app.
Qed.

Lemma all_chars_app P a b :
  all_chars P (a +:+ b) = all_chars P a && all_chars P b.
Proof.
  induction a as [|x a IH]; [reflexivity|].
  rewrite app_cons_str. simpl. now rewrite IH, andb_assoc.
Qed.

Lemma all_chars_not_mem c s : all_chars (is_not c) s = true -> mem_ascii c s = false.
Proof.
  induction s as [|a s IH]; simpl; [reflexivity|].
  intros H. apply andb_true_iff in H as [Ha Hs]. unfold is_not in Ha.
  apply negb_true_iff in Ha. rewrite Ascii.eqb_sym, Ha. auto.
Qed.

Lemma mem_ascii_app c a b : mem_ascii c (a +:+ b) = mem_ascii c a || mem_ascii c b.
Proof.
  induction a as [|x a IH]; [reflexivity|].
  rewrite app_cons_str. simpl. now rewrite IH, orb_assoc.
Qed.

Lemma in_all_ascii a : In a all_ascii.
Proof.
  unfold all_ascii. rewrite <- (ascii_nat_embedding a).
  apply in_map, in_seq. pose proof (nat_ascii_bounded a). lia.
Qed.

Lemma implies_spec p q a : implies p q = true -> p a = true -> q a = true.
Proof.
  unfold implies. rewrite forallb_forall. intros H Hp.
  specialize (H a (in_all_ascii a)). now rewrite Hp in H.
Qed.

Lemma head_in_app p q a t :
  all_chars q a = true -> implies q (fun c => negb (p c)) = true ->
  head_in p t = false -> head_in p (a +:+ t) = false.
Proof.
  intros Ha Hq Ht. destruct a as [|x a]; [exact Ht|].
  simpl in Ha. apply andb_true_iff in Ha as [Hx _].
  rewrite app_cons_str. simpl.
  apply negb_true_iff. exact (implies_spec _ _ _ Hq Hx).
Qed.

Lemma head_digit_not P d t :
  d <> "" -> all_chars is_digit d = true ->
  implies is_digit (fun c => negb (P c)) = true ->
  head_in P (d +:+ t) = false.
Proof.
  intros Hd Ha Hq. destruct d as [|x d]; [contradiction|].
  simpl in Ha. apply andb_true_iff in Ha as [Hx _].
  rewrite app_cons_str. simpl. apply negb_true_iff.
  exact (implies_spec _ _ _ Hq Hx).
Qed.

(** ** The matcher returns a parse *)

Lemma rep_loop_sound r item g lo hi k :
  item_sound r item ->
  forall fuel count last s e res,
    rep_loop item g lo hi k fuel count last s e = Some res ->
    exists c s' e', s = c +:+ s'
      /\ parses (Rep g (lo - count) (less hi count) r) c e e'
      /\ k s' e' = Some res.
Proof.
  intros Hitem.
  assert (Hround : forall fuel,
    (forall count last s e res,
      rep_loop item g lo hi k fuel count last s e = Some res ->
      exists c s' e', s = c +:+ s'
        /\ parses (Rep g (lo - count) (less hi count) r) c e e'
        /\ k s' e' = Some res) ->
    forall count last s e res,
      (0 <? lo - count) || below 0 (less hi count) = true ->
      item s e (fun s1 e1 => rep_loop item g lo hi k fuel (S count) last s1 e1)
        = Some res ->
      exists c s' e', s = c +:+ s'
        /\ parses (Rep g (lo - count) (less hi count) r) c e e'
        /\ k s' e' = Some res).
  { intros fuel IH count last s e res Hgo Hrun.
    destruct (Hitem _ _ _ _ Hrun) as (c1 & s1 & e1 & -> & Hp1 & Hrest).
    destruct (IH _ _ _ _ _ Hrest) as (c2 & s2 & e2 & -> & Hp2 & Hk).
    exists (c1 +:+ c2), s2, e2. split; [now rewrite app_assoc_str|].
    split; [|exact Hk].
    eapply parses_rep_round; eauto.
    replace (pred (lo - count)) with (lo - S count) by lia.
    replace (pred <$> less hi count) with (less hi (S count)); [exact Hp2|].
    destruct hi as [h|]; simpl; [f_equal; lia | reflexivity]. }
  assert (Hstop : forall count s e res,
    (count <? lo) = false -> k s e = Some res ->
    exists c s' e', s = c +:+ s'
      /\ parses (Rep g (lo - count) (less hi count) r) c e e'
      /\ k s' e' = Some res).
  { intros count s e res Hlo Hk. apply Nat.ltb_ge in Hlo.
    exists "", s, e. split; [reflexivity|]. split; [|exact Hk].
    replace (lo - count) with 0 by lia. constructor. }
  assert (Hmore : forall count last n,
    below count hi && negb (same_place last n) = true ->
    (0 <? lo - count) || below 0 (less hi count) = true).
  { intros count last n Hm. apply andb_true_iff in Hm as [Hb _].
    apply orb_true_iff. right. destruct hi as [h|]; simpl in *; [|reflexivity].
    apply Nat.ltb_lt in Hb. apply Nat.ltb_lt. lia. }
  induction fuel as [|fuel IH]; intros count last s e res Hrun; [discriminate|].
  simpl in Hrun.
  destruct (count <? lo) eqn:Hlo.
  - eapply Hround; eauto.
    apply Nat.ltb_lt in Hlo. apply orb_true_iff. left. apply Nat.ltb_lt. lia.
  - destruct g.
    + destruct (below count hi && negb (same_place last (String.length s))) eqn:Hm.
      * destruct (item s e _) as [res'|] eqn:Hi.
        -- injection Hrun as <-. eapply Hround; eauto.
        -- eapply Hstop; eauto.
      * eapply Hstop; eauto.
    + destruct (k s e) as [res'|] eqn:Hk.
      * injection Hrun as <-. eapply Hstop; eauto.
      * destruct (below count hi && negb (same_place last (String.length s))) eqn:Hm;
          [|discriminate].
        eapply Hround; eauto.
Qed.

Lemma run_sound n0 r : item_sound r (run n0 r).
Proof.
  induction r as [|p|r1 IH1 r2 IH2|r1 IH1 r2 IH2|g lo hi r1 IH|name r1 IH|r1 IH| |];
    intros s e k res Hrun; simpl in Hrun.
  - exists "", s, e. repeat split; [constructor | exact Hrun].
  - destruct s as [|c s']; [discriminate|].
    destruct (p c) eqn:Hp; [|discriminate].
    exists (String c ""), s', e. repeat split; [now constructor | exact Hrun].
  - destruct (IH1 _ _ _ _ Hrun) as (c1 & s1 & e1 & -> & Hp1 & Hrest).
    destruct (IH2 _ _ _ _ Hrest) as (c2 & s2 & e2 & -> & Hp2 & Hk).
    exists (c1 +:+ c2), s2, e2. split; [now rewrite app_assoc_str|].
    split; [econstructor; eauto | exact Hk].
  - destruct (run n0 r1 s e k) as [res'|] eqn:H1.
    + injection Hrun as <-.
      destruct (IH1 _ _ _ _ H1) as (c & s' & e' & -> & Hp & Hk).
      exists c, s', e'. repeat split; [now apply parses_alt_l | exact Hk].
    + destruct (IH2 _ _ _ _ Hrun) as (c & s' & e' & -> & Hp & Hk).
      exists c, s', e'. repeat split; [now apply parses_alt_r | exact Hk].
  - destruct (rep_loop_sound r1 _ g lo hi k IH _ _ _ _ _ _ Hrun)
      as (c & s' & e' & -> & Hp & Hk).
    exists c, s', e'. repeat split; [|exact Hk].
    rewrite Nat.sub_0_r in Hp.
    replace (less hi 0) with hi in Hp; [exact Hp|].
    destruct hi as [h|]; simpl; [f_equal; lia | reflexivity].
  - destruct (IH _ _ _ _ Hrun) as (c & s' & e' & -> & Hp & Hk).
    rewrite captured_text in Hk.
    exists c, s', (<[name := c]> e'). repeat split; [now constructor | exact Hk].
  - destruct (run n0 r1 s e _); [discriminate|].
    exists "", s, e. repeat split; [constructor | exact Hrun].
  - destruct (String.length s =? n0); [|discriminate].
    exists "", s, e. repeat split; [constructor | exact Hrun].
  - exists "", s, e. repeat split; [constructor|].
    destruct s as [|c [|]]; try discriminate; [exact Hrun|].
    destruct (Ascii.eqb c LF); [exact Hrun | discriminate].
Qed.

Lemma fullmatch_parses r w m : fullmatch r w = Some m -> parses r w ∅ m.
Proof.
  unfold fullmatch. intros Hrun.
  destruct (run_sound _ _ _ _ _ _ Hrun) as (c & s' & e' & -> & Hp & Hk).
  unfold end_of_name in Hk. destruct s'; [|discriminate]. injection Hk as <-.
  now rewrite app_nil_r_str.
Qed.

(** ** The repeat never runs out of fuel *)

Lemma rep_loop_local item g lo hi :
  item_local item ->
  forall fuel count last s e k k',
    (forall s1 e1, String.length s1 <= String.length s -> k s1 e1 = k' s1 e1) ->
    rep_loop item g lo hi k fuel count last s e
    = rep_loop item g lo hi k' fuel count last s e.
Proof.
  intros Hitem. induction fuel as [|fuel IH]; intros count last s e k k' Hk;
    [reflexivity|].
  simpl.
  assert (Hround : forall last',
    item s e (fun s1 e1 => rep_loop item g lo hi k fuel (S count) last' s1 e1)
    = item s e (fun s1 e1 => rep_loop item g lo hi k' fuel (S count) last' s1 e1)).
  { intros last'. apply Hitem. intros s1 e1 Hle. apply IH.
    intros s2 e2 Hle2. apply Hk. lia. }
  rewrite !Hround, (Hk s e (le_n _)). reflexivity.
Qed.

Lemma run_local n0 r : item_local (run n0 r).
Proof.
  induction r as [|p|r1 IH1 r2 IH2|r1 IH1 r2 IH2|g lo hi r1 IH|name r1 IH|r1 IH| |];
    intros s e k k' Hk; simpl.
  - apply Hk. lia.
  - destruct s as [|c s']; [reflexivity|]. destruct (p c); [|reflexivity].
    apply Hk. simpl. lia.
  - apply IH1. intros s1 e1 H1. apply IH2. intros s2 e2 H2. apply Hk. lia.
  - rewrite (IH1 _ _ _ _ Hk), (IH2 _ _ _ _ Hk). reflexivity.
  - apply rep_loop_local; assumption.
  - apply IH. intros s1 e1 H1. apply Hk. exact H1.
  - rewrite (Hk s e (le_n _)). reflexivity.
  - rewrite (Hk s e (le_n _)). reflexivity.
  - destruct s as [|c [|]]; try reflexivity; [apply Hk; lia|].
    destruct (Ascii.eqb c LF); [apply Hk; lia | reflexivity].
Qed.

(** Past [rounds_left], more fuel changes nothing: the loop never stops
    for want of it. *)
Lemma rep_loop_fuel item g lo hi k :
  item_local item ->
  forall fuel1 fuel2 count last s e,
    rounds_left lo count last s <= fuel1 ->
    rounds_left lo count last s <= fuel2 ->
    rep_loop item g lo hi k fuel1 count last s e
    = rep_loop item g lo hi k fuel2 count last s e.
Proof.
  intros Hitem. induction fuel1 as [|fuel1 IH]; intros fuel2 count last s e H1 H2.
  { unfold rounds_left in H1. destruct (same_place _ _); lia. }
  destruct fuel2 as [|fuel2].
  { unfold rounds_left in H2. destruct (same_place _ _); lia. }
  simpl.
  assert (Hround : forall last',
    (forall s1, String.length s1 <= String.length s ->
                rounds_left lo (S count) last' s1 <= fuel1
                /\ rounds_left lo (S count) last' s1 <= fuel2) ->
    item s e (fun s1 e1 => rep_loop item g lo hi k fuel1 (S count) last' s1 e1)
    = item s e (fun s1 e1 => rep_loop item g lo hi k fuel2 (S count) last' s1 e1)).
  { intros last' Hle. apply Hitem. intros s1 e1 Hs1.
    destruct (Hle s1 Hs1). now apply IH. }
  assert (Hmand : (count <? lo) = true ->
    forall s1, String.length s1 <= String.length s ->
      rounds_left lo (S count) last s1 <= fuel1
      /\ rounds_left lo (S count) last s1 <= fuel2).
  { intros Hlo s1 Hs1. apply Nat.ltb_lt in Hlo. unfold rounds_left in *.
    destruct last as [p|]; simpl in *.
    - destruct (Nat.eqb_spec p (String.length s)),
        (Nat.eqb_spec p (String.length s1)); lia.
    - lia. }
  assert (Hopt : (count <? lo) = false ->
    below count hi && negb (same_place last (String.length s)) = true ->
    forall s1, String.length s1 <= String.length s ->
      rounds_left lo (S count) (Some (String.length s)) s1 <= fuel1
      /\ rounds_left lo (S count) (Some (String.length s)) s1 <= fuel2).
  { intros Hlo Hm s1 Hs1. apply Nat.ltb_ge in Hlo.
    apply andb_true_iff in Hm as [_ Hm]. apply negb_true_iff in Hm.
    unfold rounds_left in *. rewrite Hm in H1, H2. simpl.
    destruct (Nat.eqb_spec (String.length s) (String.length s1)); lia. }
  destruct (count <? lo) eqn:Hlo.
  - apply Hround. auto.
  - destruct (below count hi && negb (same_place last (String.length s))) eqn:Hm.
    + rewrite (Hround (Some (String.length s))) by auto. reflexivity.
    + reflexivity.
Qed.

(** The fuel [run] gives a repeat is enough: any larger amount gives the
    same result. *)
Lemma run_rep_fuel n0 g lo hi r s e k extra :
  rep_loop (run n0 r) g lo hi k (lo + String.length s + 3 + extra) 0 None s e
  = run n0 (Rep g lo hi r) s e k.
Proof.
  simpl. apply rep_loop_fuel; [apply run_local | |];
    unfold rounds_left; simpl; lia.
Qed.

(** ** What every parse satisfies *)

Lemma mentions_cat g r1 r2 :
  mentions g (Cat r1 r2) = mentions g r1 || mentions g r2.
Proof. unfold mentions. simpl. apply existsb_app. Qed.

Lemma parses_frame r c e e' g :
  parses r c e e' -> mentions g r = false -> e' !! g = e !! g.
Proof.
  induction 1 as [ | | r1 r2 c1 c2 e e1 e2 _ IH1 _ IH2
                 | r1 r2 c e e' _ IH | r1 r2 c e e' _ IH |
                 | gr lo hi r c1 c2 e e1 e2 _ _ IH1 _ IH2
                 | name r c e e' _ IH | | | ]; intros Hm; try reflexivity.
  - rewrite mentions_cat in Hm. apply orb_false_iff in Hm as [H1 H2].
    now rewrite IH2, IH1.
  - change (mentions g (Alt r1 r2)) with (mentions g (Cat r1 r2)) in Hm.
    rewrite mentions_cat in Hm. apply orb_false_iff in Hm as [H1 H2]. auto.
  - change (mentions g (Alt r1 r2)) with (mentions g (Cat r1 r2)) in Hm.
    rewrite mentions_cat in Hm. apply orb_false_iff in Hm as [H1 H2]. auto.
  - rewrite IH2, IH1; auto.
  - unfold mentions in Hm. simpl in Hm. apply orb_false_iff in Hm as [Hne Hm].
    apply String.eqb_neq in Hne.
    rewrite lookup_insert_ne by congruence. now apply IH.
Qed.

Lemma parses_progress r c e e' :
  parses r c e e' -> nullable r = false -> c <> "".
Proof.
  induction 1 as [ | | r1 r2 c1 c2 e e1 e2 _ IH1 _ IH2
                 | r1 r2 c e e' _ IH | r1 r2 c e e' _ IH |
                 | gr lo hi r c1 c2 e e1 e2 _ _ IH1 _ IH2
                 | name r c e e' _ IH | | | ]; simpl; intros Hn; try discriminate.
  - apply andb_false_iff in Hn as [Hn|Hn]; intros Heq.
    + apply IH1; [exact Hn|]. now apply app_eq_nil_str in Heq.
    + apply IH2; [exact Hn|]. destruct c1; [exact Heq | discriminate].
  - apply orb_false_iff in Hn as [H1 H2]. auto.
  - apply orb_false_iff in Hn as [H1 H2]. auto.
  - apply orb_false_iff in Hn as [_ Hn]. intros Heq.
    apply IH1; [exact Hn|]. now apply app_eq_nil_str in Heq.
  - auto.
Qed.

Lemma parses_cat_inv r1 r2 c e e2 :
  parses (Cat r1 r2) c e e2 ->
  exists c1 c2 e1, c = c1 +:+ c2 /\ parses r1 c1 e e1 /\ parses r2 c2 e1 e2.
Proof. inversion 1; subst; eauto 8. Qed.

Lemma parses_alt_inv r1 r2 c e e' :
  parses (Alt r1 r2) c e e' -> parses r1 c e e' \/ parses r2 c e e'.
Proof. inversion 1; subst; auto. Qed.

Lemma parses_cap_inv name r c e e' :
  parses (Cap name r) c e e' ->
  exists e1, parses r c e e1 /\ e' = <[name := c]> e1.
Proof. inversion 1; subst; eauto. Qed.

Lemma parses_cls_inv p c e e' :
  parses (Cls p) c e e' -> exists a, c = String a "" /\ p a = true /\ e' = e.
Proof. inversion 1; subst; eauto. Qed.

Lemma parses_rep_inv g lo hi r c e e' :
  parses (Rep g lo hi r) c e e' ->
  (lo = 0 /\ c = "" /\ e' = e)
  \/ exists c1 c2 e1, c = c1 +:+ c2
       /\ (0 <? lo) || below 0 hi = true
       /\ parses r c1 e e1
       /\ parses (Rep g (pred lo) (pred <$> hi) r) c2 e1 e'.
Proof. inversion 1; subst; [left; auto | right; eauto 10]. Qed.

Lemma parses_opt_inv r c e e' :
  parses (opt r) c e e' -> (c = "" /\ e' = e) \/ parses r c e e'.
Proof.
  intros H. apply parses_rep_inv in H as [(_ & -> & ->)|(c1 & c2 & e1 & -> & _ & H1 & H2)];
    [left; auto|].
  right. apply parses_rep_inv in H2 as [(_ & -> & ->)|(? & ? & ? & _ & Hb & _)].
  - now rewrite app_nil_r_str.
  - discriminate.
Qed.

Lemma parses_chr a c e e' : parses (chr a) c e e' -> c = String a "" /\ e' = e.
Proof.
  intros H. apply parses_cls_inv in H as (x & -> & Hx & ->).
  apply Ascii.eqb_eq in Hx. now subst.
Qed.

Lemma parses_lit s c e e' : parses (lit s) c e e' -> c = s /\ e' = e.
Proof.
  revert c e e'. induction s as [|a s IH]; intros c e e' H; simpl in H.
  - inversion H; subst; auto.
  - destruct s as [|b s].
    + apply parses_cls_inv in H as (x & -> & Hx & ->).
      apply Ascii.eqb_eq in Hx. now subst.
    + apply parses_cat_inv in H as (c1 & c2 & e1 & -> & H1 & H2).
      apply parses_cls_inv in H1 as (x & -> & Hx & ->).
      apply Ascii.eqb_eq in Hx. subst x.
      apply IH in H2 as [-> ->]. auto.
Qed.

Lemma parses_starts P r c e e' :
  parses r c e e' -> starts P r = true ->
  exists a t, c = String a t /\ P a = true.
Proof.
  induction 1 as [ | p a e Hp | r1 r2 c1 c2 e e1 e2 _ IH1 _ IH2
                 | r1 r2 c e e' _ IH | r1 r2 c e e' _ IH |
                 | gr lo hi r c1 c2 e e1 e2 _ _ IH1 _ IH2
                 | name r c e e' _ IH | | | ]; simpl; intros Hs; try discriminate.
  - exists a, "". split; [reflexivity|]. eapply implies_spec; eauto.
  - destruct (IH1 Hs) as (a & t & -> & Pa). exists a, (t +:+ c2). auto.
  - apply andb_true_iff in Hs as [H1 H2]. auto.
  - apply andb_true_iff in Hs as [H1 H2]. auto.
  - apply andb_true_iff in Hs as [_ Hs].
    destruct (IH1 Hs) as (a & t & -> & Pa). exists a, (t +:+ c2). auto.
  - auto.
Qed.

Lemma parses_within P r c e e' :
  parses r c e e' -> within P r = true -> all_chars P c = true.
Proof.
  induction 1 as [ | p a e Hp | r1 r2 c1 c2 e e1 e2 _ IH1 _ IH2
                 | r1 r2 c e e' _ IH | r1 r2 c e e' _ IH |
                 | gr lo hi r c1 c2 e e1 e2 _ _ IH1 _ IH2
                 | name r c e e' _ IH | | | ]; simpl; intros Hs; try reflexivity.
  - rewrite (implies_spec _ _ _ Hs Hp). reflexivity.
  - apply andb_true_iff in Hs as [H1 H2]. rewrite all_chars_app, IH1, IH2; auto.
  - apply andb_true_iff in Hs as [H1 H2]. auto.
  - apply andb_true_iff in Hs as [H1 H2]. auto.
  - rewrite all_chars_app, IH1, IH2; auto.
  - auto.
Qed.

Lemma parses_first_in P r c e e' :
  parses r c e e' -> first_in P r = true ->
  c = "" \/ exists a t, c = String a t /\ P a = true.
Proof.
  induction 1 as [ | p a e Hp | r1 r2 c1 c2 e e1 e2 H1 IH1 _ IH2
                 | r1 r2 c e e' _ IH | r1 r2 c e e' _ IH |
                 | gr lo hi r c1 c2 e e1 e2 _ _ IH1 _ IH2
                 | name r c e e' _ IH | | | ]; simpl; intros Hs; auto.
  - right. exists a, "". split; [reflexivity|]. eapply implies_spec; eauto.
  - apply andb_true_iff in Hs as [Ha Hb].
    destruct (IH1 Ha) as [->|(a & t & -> & Pa)].
    + apply orb_true_iff in Hb as [Hb|Hb]; [|now apply IH2].
      apply negb_true_iff in Hb. now destruct (parses_progress _ _ _ _ H1 Hb).
    + right. exists a, (t +:+ c2). auto.
  - apply andb_true_iff in Hs as [Ha Hb]. auto.
  - apply andb_true_iff in Hs as [Ha Hb]. auto.
  - destruct (IH1 Hs) as [->|(a & t & -> & Pa)]; [now apply IH2|].
    right. exists a, (t +:+ c2). auto.
Qed.

Lemma parses_opt_starts chars r c e e' :
  parses (opt r) c e e' -> starts (fun a => mem_ascii a chars) r = true ->
  c = "" \/ starts_with_any chars c = true.
Proof.
  intros H Hs. apply parses_opt_inv in H as [[-> _]|H]; [now left|].
  right. destruct (parses_starts _ _ _ _ _ H Hs) as (a & t & -> & Ha). exact Ha.
Qed.

(** Each alternative of the combined pattern sets its own class group to a
    non-empty text and leaves the three others alone. *)
Lemma parses_cap_first name r rest c e m :
  parses (Cat (Cap name r) rest) c e m ->
  nullable r = false -> mentions name rest = false ->
  present m name = true.
Proof.
  intros H Hn Hm.
  apply parses_cat_inv in H as (c1 & c2 & e1 & -> & H1 & H2).
  apply parses_cap_inv in H1 as (e0 & H1 & ->).
  unfold present. rewrite (parses_frame _ _ _ _ _ H2 Hm), lookup_insert_eq.
  apply parses_progress in H1; [|exact Hn]. now destruct c1.
Qed.

Lemma parses_cap_whole name r c e m :
  parses (Cap name r) c e m -> nullable r = false -> present m name = true.
Proof.
  intros H Hn. apply parses_cap_inv in H as (e0 & H1 & ->).
  unfold present. rewrite lookup_insert_eq.
  apply parses_progress in H1; [|exact Hn]. now destruct c.
Qed.

Lemma absent_not_present r c m g :
  parses r c ∅ m -> mentions g r = false -> present m g = false.
Proof.
  intros H Hm. unfold present. now rewrite (parses_frame _ _ _ _ _ H Hm), lookup_empty.
Qed.

(** ** The first match *)

Lemma run_cat n0 r1 r2 s e k :
  run n0 (Cat r1 r2) s e k = run n0 r1 s e (fun s1 e1 => run n0 r2 s1 e1 k).
Proof. reflexivity. Qed.

Lemma run_alt n0 r1 r2 s e k :
  run n0 (Alt r1 r2) s e k
  = match run n0 r1 s e k with
    | Some res => Some res
    | None => run n0 r2 s e k
    end.
Proof. reflexivity. Qed.

Lemma run_cap n0 name r s e k :
  run n0 (Cap name r) s e k
  = run n0 r s e (fun s1 e1 =>
      k s1 (<[name := substring 0 (String.length s - String.length s1) s]> e1)).
Proof. reflexivity. Qed.

Lemma run_cls n0 p c s e k :
  run n0 (Cls p) (String c s) e k = if p c then k s e else None.
Proof. reflexivity. Qed.

Lemma run_rep n0 g lo hi r s e k :
  run n0 (Rep g lo hi r) s e k
  = rep_loop (run n0 r) g lo hi k (lo + String.length s + 3) 0 None s e.
Proof. reflexivity. Qed.

Lemma run_opt n0 r s e k :
  run n0 (opt r) s e k
  = match run n0 r s e k with
    | Some res => Some res
    | None => k s e
    end.
Proof.
  unfold opt. simpl run.
  replace (String.length s + 3) with (S (S (S (String.length s)))) by lia.
  reflexivity.
Qed.

Lemma rep_loop_greedy item lo hi k fuel count last s e :
  rep_loop item true lo hi k (S fuel) count last s e
  = if count <? lo
    then item s e (fun s1 e1 => rep_loop item true lo hi k fuel (S count) last s1 e1)
    else if below count hi && negb (same_place last (String.length s))
         then match item s e (fun s1 e1 =>
                      rep_loop item true lo hi k fuel (S count)
                        (Some (String.length s)) s1 e1) with
              | Some res => Some res
              | None => k s e
              end
         else k s e.
Proof. reflexivity. Qed.

(** Failure read off the declarative side. *)
Lemma fails_start n0 P r x s :
  starts P r = true -> P x = false -> fails n0 r (String x s).
Proof.
  intros Hs Hx e k. destruct (run n0 r (String x s) e k) as [res|] eqn:Hrun;
    [|reflexivity].
  destruct (run_sound _ _ _ _ _ _ Hrun) as (c & s' & e' & Heq & Hp & _).
  destruct (parses_starts _ _ _ _ _ Hp Hs) as (a & t & -> & Pa).
  rewrite app_cons_str in Heq. injection Heq as -> _. congruence.
Qed.

Lemma fails_head n0 P r s :
  starts P r = true -> head_in P s = false -> fails n0 r s.
Proof.
  intros Hs Hh. destruct s as [|x s]; [|now apply (fails_start n0 P)].
  intros e k. destruct (run n0 r "" e k) as [res|] eqn:Hrun; [|reflexivity].
  destruct (run_sound _ _ _ _ _ _ Hrun) as (c & s' & e' & Heq & Hp & _).
  destruct (parses_starts _ _ _ _ _ Hp Hs) as (a & t & -> & _). discriminate.
Qed.

Lemma fails_empty n0 r : nullable r = false -> fails n0 r "".
Proof.
  intros Hn e k. destruct (run n0 r "" e k) as [res|] eqn:Hrun; [|reflexivity].
  destruct (run_sound _ _ _ _ _ _ Hrun) as (c & s' & e' & Heq & Hp & _).
  apply parses_progress in Hp; [|exact Hn].
  destruct c; [contradiction | discriminate].
Qed.

Lemma fails_cat_cls n0 p r x s :
  fails n0 r s -> fails n0 (Cat (Cls p) r) (String x s).
Proof. intros Hf e k. rewrite run_cat, run_cls. destruct (p x); [apply Hf | reflexivity]. Qed.

Lemma fails_cat_notahead n0 r1 r2 s :
  fails n0 r2 s -> fails n0 (Cat (NotAhead r1) r2) s.
Proof.
  intros Hf e k. rewrite run_cat. simpl.
  destruct (run n0 r1 s e _); [reflexivity | apply Hf].
Qed.

(** A pattern that cannot read the next character hands the text on
    unread. *)
Lemma run_blocked n0 P r x s e k res :
  first_in P r = true -> P x = false ->
  run n0 r (String x s) e k = Some res ->
  exists e', k (String x s) e' = Some res.
Proof.
  intros Hf Hx Hrun.
  destruct (run_sound _ _ _ _ _ _ Hrun) as (c & s' & e' & Heq & Hp & Hk).
  destruct (parses_first_in _ _ _ _ _ Hp Hf) as [->|(a & t & -> & Pa)].
  - rewrite app_nil_l_str in Heq. subst s'. eauto.
  - rewrite app_cons_str in Heq. injection Heq as -> _. congruence.
Qed.

Lemma takes_eps n0 t e : takes n0 Eps "" t e e.
Proof. intros k res Hk. exact Hk. Qed.

Lemma takes_cls n0 p x t e : p x = true -> takes n0 (Cls p) (String x "") t e e.
Proof. intros Hp k res Hk. rewrite app_cons_str, run_cls, Hp. exact Hk. Qed.

Lemma takes_cat n0 r1 r2 c1 c2 t e e1 e2 :
  takes n0 r1 c1 (c2 +:+ t) e e1 -> takes n0 r2 c2 t e1 e2 ->
  takes n0 (Cat r1 r2) (c1 +:+ c2) t e e2.
Proof.
  intros H1 H2 k res Hk. rewrite run_cat, app_assoc_str.
  apply H1. now apply H2.
Qed.

Lemma takes_seq n0 r1 r2 c c1 c2 t e e1 e2 :
  c = c1 +:+ c2 ->
  takes n0 r1 c1 (c2 +:+ t) e e1 -> takes n0 r2 c2 t e1 e2 ->
  takes n0 (Cat r1 r2) c t e e2.
Proof. intros ->. apply takes_cat. Qed.

Lemma takes_cap n0 name r c t e e' :
  takes n0 r c t e e' -> takes n0 (Cap name r) c t e (<[name := c]> e').
Proof.
  intros H k res Hk. rewrite run_cap. apply H. now rewrite captured_text.
Qed.

Lemma takes_alt_l n0 r1 r2 c t e e' :
  takes n0 r1 c t e e' -> takes n0 (Alt r1 r2) c t e e'.
Proof. intros H k res Hk. rewrite run_alt, (H k res Hk). reflexivity. Qed.

Lemma takes_alt_r n0 r1 r2 c t e e' :
  fails n0 r1 (c +:+ t) -> takes n0 r2 c t e e' ->
  takes n0 (Alt r1 r2) c t e e'.
Proof. intros Hf H k res Hk. rewrite run_alt, Hf. now apply H. Qed.

Lemma takes_opt n0 r c t e e' :
  takes n0 r c t e e' -> takes n0 (opt r) c t e e'.
Proof. intros H k res Hk. rewrite run_opt, (H k res Hk). reflexivity. Qed.

Lemma takes_opt_skip n0 r t e :
  fails n0 r t -> takes n0 (opt r) "" t e e.
Proof. intros Hf k res Hk. rewrite app_nil_l_str, run_opt, Hf. exact Hk. Qed.

(** A greedy repeat of a character class reads the whole run of the class
    first. *)
Lemma rep_loop_class n0 p lo k t res :
  head_in p t = false ->
  forall a fuel count last e,
    all_chars p a = true ->
    String.length a < fuel ->
    lo <= count + String.length a ->
    (forall n, last = Some n -> String.length (a +:+ t) < n) ->
    k t e = Some res ->
    rep_loop (run n0 (Cls p)) true lo None k fuel count last (a +:+ t) e = Some res.
Proof.
  intros Ht. induction a as [|x a IH]; intros fuel count last e Ha Hfuel Hlo Hlast Hk.
  - rewrite app_nil_l_str in *. destruct fuel as [|fuel]; [simpl in Hfuel; lia|].
    simpl in Hlo. rewrite rep_loop_greedy.
    replace (count <? lo) with false by (symmetry; apply Nat.ltb_ge; lia).
    assert (Hno : forall k', run n0 (Cls p) t e k' = None).
    { intros k'. destruct t as [|c t]; [reflexivity|]. simpl in Ht.
      now rewrite run_cls, Ht. }
    rewrite Hno. now destruct (_ && _).
  - simpl in Ha. apply andb_true_iff in Ha as [Hx Ha].
    destruct fuel as [|fuel]; [simpl in Hfuel; lia|].
    rewrite app_cons_str in *. simpl String.length in *.
    assert (Hnext : forall last',
      (forall n, last' = Some n -> String.length (a +:+ t) < n) ->
      rep_loop (run n0 (Cls p)) true lo None k fuel (S count) last' (a +:+ t) e
      = Some res).
    { intros last' Hl. apply IH; auto; lia. }
    rewrite rep_loop_greedy, !run_cls, Hx.
    destruct (count <? lo).
    + apply Hnext. intros n Hn. specialize (Hlast n Hn). lia.
    + assert (Hsame : same_place last (String.length (String x (a +:+ t))) = false).
      { destruct last as [n|]; [|reflexivity]. simpl.
        apply Nat.eqb_neq. specialize (Hlast n eq_refl). lia. }
      rewrite Hsame. simpl andb. cbv iota. rewrite Hnext; [reflexivity|].
      intros n Hn. injection Hn as <-. simpl. lia.
Qed.

Lemma takes_class n0 p lo a t e :
  all_chars p a = true -> head_in p t = false -> lo <= String.length a ->
  takes n0 (Rep true lo None (Cls p)) a t e e.
Proof.
  intros Ha Ht Hlo k res Hk. rewrite run_rep.
  apply rep_loop_class; auto; try lia.
  - rewrite length_app. lia.
  - discriminate.
Qed.

Lemma takes_lit n0 l t e : takes n0 (lit l) l t e e.
Proof.
  revert e. induction l as [|x l IH]; intros e.
  - apply takes_eps.
  - destruct l as [|y l].
    + apply takes_cls. apply Ascii.eqb_refl.
    + change (lit (String x (String y l))) with (Cat (chr x) (lit (String y l))).
      change (String x (String y l)) with (String x "" +:+ String y l).
      eapply takes_cat; [apply takes_cls, Ascii.eqb_refl | apply IH].
Qed.

Lemma takes_end n0 r c e e' :
  takes n0 r c "" e e' ->
  forall k res, k "" e' = Some res -> run n0 r c e k = Some res.
Proof. intros H k res Hk. rewrite <- (app_nil_r_str c). now apply H. Qed.

(** ** The four classes *)

(** Each alternative of the combined pattern sets the group of its own
    class, and none of the three other class groups. *)
Lemma parses_one_class name m : parses structure_pat name ∅ m -> one_class m.
Proof.
  unfold structure_pat, all_structure_pattern. simpl alts. intros H.
  unfold one_class, class_groups. simpl List.filter.
  apply parses_alt_inv in H as [H|H]; [|apply parses_alt_inv in H as [H|H];
    [|apply parses_alt_inv in H as [H|H]]].
  - rewrite (parses_cap_first _ _ _ _ _ _ H) by reflexivity.
    rewrite !(absent_not_present _ _ _ _ H) by reflexivity. reflexivity.
  - rewrite (parses_cap_first _ _ _ _ _ _ H) by reflexivity.
    rewrite !(absent_not_present _ _ _ _ H) by reflexivity. reflexivity.
  - rewrite (parses_cap_whole _ _ _ _ _ H) by reflexivity.
    rewrite !(absent_not_present _ _ _ _ H) by reflexivity. reflexivity.
  - rewrite (parses_cap_whole _ _ _ _ _ H) by reflexivity.
    rewrite !(absent_not_present _ _ _ _ H) by reflexivity. reflexivity.
Qed.

(** The first alternative gives up at once on a name that does not start
    with one of its three characters. *)
Lemma run_not_evaluated_fails n0 c s e k :
  mem_ascii c "zZ_" = false ->
  run n0 not_evaluated_pat (String c s) e k = None.
Proof.
  intros H. unfold not_evaluated_pat, oneof.
  change (seq [?a; ?b]) with (Cat a b).
  rewrite run_cat, run_cap, run_cls. cbv beta. now rewrite H.
Qed.

(** A name the Target pattern matches on its own is matched the same way
    by the combined pattern: the alternative before it fails on the first
    character of a target type. *)
Lemma fullmatch_target_first name m :
  fullmatch target_pattern name = Some m ->
  fullmatch structure_pat name = Some m.
Proof.
  intros H. pose proof (fullmatch_parses _ _ _ H) as Hp.
  apply (parses_starts (fun a => negb (mem_ascii a "zZ_"))) in Hp;
    [|reflexivity].
  destruct Hp as (a & t & -> & Ha). apply negb_true_iff in Ha.
  unfold fullmatch in *. unfold structure_pat, all_structure_pattern.
  simpl alts.
  rewrite run_alt, run_not_evaluated_fails by exact Ha.
  now rewrite run_alt, H.
Qed.

(** C1: whenever the combined pattern matches a whole name, exactly one of
    the four class groups ([NotEvalChar], [BaseTarget], [OARCrop],
    [StructureName]) holds a non-empty text; and a name that the Target
    pattern and the BasicOAR pattern both match on their own (such as
    [GTV]) is matched by the combined pattern as a Target: [BaseTarget]
    is present and [StructureName] is not. *)
Theorem combined_classifier_exclusive (name : string) :
  (forall m, fullmatch structure_pat name = Some m -> one_class m)
  /\ (is_Some (fullmatch target_pattern name) ->
      is_Some (fullmatch basic_structure_pat name) ->
      exists m, fullmatch structure_pat name = Some m
        /\ present m "BaseTarget" = true
        /\ present m "StructureName" = false).
Proof.
  split.
  - intros m H. eapply parses_one_class, fullmatch_parses, H.
  - intros [m Ht] _. exists m. split; [now apply fullmatch_target_first|].
    apply fullmatch_parses in Ht. split.
    + eapply parses_cap_first; [exact Ht | reflexivity | reflexivity].
    + eapply absent_not_present; [exact Ht | reflexivity].
Qed.

Lemma combined_classifier_exclusive_witness :
  is_Some (fullmatch target_pattern "GTV")
  /\ is_Some (fullmatch basic_structure_pat "GTV")
  /\ exists m, fullmatch structure_pat "GTV" = Some m
       /\ present m "BaseTarget" = true
       /\ present m "StructureName" = false.
Proof.
  assert (H1 : is_Some (fullmatch target_pattern "GTV"))
    by (vm_compute; eexists; reflexivity).
  assert (H2 : is_Some (fullmatch basic_structure_pat "GTV"))
    by (vm_compute; eexists; reflexivity).
  split; [exact H1|]. split; [exact H2|].
  exact (proj2 (combined_classifier_exclusive "GTV") H1 H2).
Defined.

(** The pattern of the first class on a one-line name: it matches exactly
    the names that start with [z], [Z] or [_], and keeps the rest of the
    name whole. *)
Lemma not_evaluated_pat_first_character (c : ascii) (rest : string) :
  all_chars (is_not LF) rest = true ->
  if mem_ascii c "zZ_"
  then classify (String c rest) !! "NotEvalChar" = Some (String c "")
       /\ classify (String c rest) !! "NotEvaluated" = Some rest
  else classify (String c rest) !! "NotEvalChar" = None.
Proof.
  intros Hrest. destruct (mem_ascii c "zZ_") eqn:Hc.
  - assert (Hm : fullmatch structure_pat (String c rest)
                 = Some (<["NotEvaluated" := rest]>
                           (<["NotEvalChar" := String c ""]> ∅))).
    { unfold fullmatch, structure_pat, all_structure_pattern. simpl alts.
      rewrite run_alt.
      match goal with |- match ?x with _ => _ end = _ =>
        assert (Hx : x = Some (<["NotEvaluated" := rest]>
                                 (<["NotEvalChar" := String c ""]> ∅)));
          [|now rewrite Hx] end.
      eapply takes_end; [|reflexivity].
      unfold not_evaluated_pat. simpl seq.
      eapply (takes_seq _ _ _ _ (String c "") rest); [reflexivity | | ].
      - apply takes_cap, takes_cls. exact Hc.
      - apply takes_cap, takes_class; [exact Hrest | reflexivity | lia]. }
    unfold classify. rewrite Hm. split.
    + rewrite lookup_insert_ne by discriminate. apply lookup_insert_eq.
    + apply lookup_insert_eq.
  - unfold classify. destruct (fullmatch structure_pat (String c rest)) as [m|] eqn:Hm;
      [|apply lookup_empty].
    apply fullmatch_parses in Hm.
    unfold structure_pat, all_structure_pattern in Hm. simpl alts in Hm.
    apply parses_alt_inv in Hm as [H|H].
    + apply (parses_starts (fun a => mem_ascii a "zZ_")) in H; [|reflexivity].
      destruct H as (a & t & Heq & Ha). injection Heq as <- _. congruence.
    + now rewrite (parses_frame _ _ _ _ "NotEvalChar" H eq_refl), lookup_empty.
Qed.

(** ** The dose specifier of a target *)

(** A text of the fraction form holds the delimiter. *)
Lemma dose_fraction_has_x d e e' :
  parses dose_fraction_pat d e e' ->
  mem_ascii "x" d = true /\ e' !! "DoseFractionation" = Some d
  /\ e' !! "NumericDose" = e !! "NumericDose".
Proof.
  intros H. pose proof (parses_frame _ _ _ _ "NumericDose" H eq_refl) as Hnd.
  unfold dose_fraction_pat in H.
  apply parses_cap_inv in H as (e1 & H & ->). rewrite lookup_insert_eq.
  split; [|auto]. simpl seq in H.
  apply parses_cat_inv in H as (c1 & ? & ? & -> & _ & H).
  apply parses_cat_inv in H as (c2 & ? & ? & -> & _ & H).
  apply parses_cat_inv in H as (c3 & ? & ? & -> & _ & H).
  apply parses_cat_inv in H as (c4 & ? & ? & -> & _ & H).
  apply parses_cat_inv in H as (c5 & c6 & ? & -> & H & _).
  apply parses_chr in H as [-> _].
  rewrite !mem_ascii_app. simpl. now rewrite !orb_true_r.
Qed.

(** The two other forms never do. *)
Lemma rel_dose_no_x d e e' :
  parses rel_dose_pat d e e' ->
  mem_ascii "x" d = false /\ e' !! "DoseFractionation" = e !! "DoseFractionation".
Proof.
  intros H. split.
  - apply all_chars_not_mem. eapply parses_within; [exact H | reflexivity].
  - eapply parses_frame; [exact H | reflexivity].
Qed.

Lemma numeric_dose_no_x d e e' :
  parses numeric_dose_pat d e e' ->
  mem_ascii "x" d = false /\ e' !! "DoseFractionation" = e !! "DoseFractionation".
Proof.
  intros H. split.
  - apply all_chars_not_mem. eapply parses_within; [exact H | reflexivity].
  - eapply parses_frame; [exact H | reflexivity].
Qed.

Lemma tail_after_dose c5 c6 e4 e5 e6 :
  parses target_crop_pat c5 e4 e5 ->
  parses target_custom_qualifier_pat c6 e5 e6 ->
  c5 +:+ c6 = "" \/ starts_with_any "-^" (c5 +:+ c6) = true.
Proof.
  intros H5 H6.
  apply (parses_opt_starts "-^") in H5; [|reflexivity].
  apply (parses_opt_starts "-^") in H6; [|reflexivity].
  destruct H5 as [->|H5]; [exact H6|].
  right. destruct c5; [discriminate | exact H5].
Qed.

(** The fraction form reads a whole fraction token. *)
Lemma takes_dose_fraction n0 d1 sep d2 g b t e :
  fraction_parts d1 sep d2 g b -> head_in is_digit t = false ->
  takes n0 dose_fraction_pat (fraction_token d1 sep d2 g b) t e
    (<["DoseFractionation" := fraction_token d1 sep d2 g b]> e).
Proof.
  intros (Hd1 & Ad1 & Hsep & Ad2 & Ag & Hb & Ab) Ht.
  unfold dose_fraction_pat, fraction_token. apply takes_cap. simpl seq.
  assert (Hx : forall u, head_in is_digit (String "x" u) = false) by reflexivity.
  assert (Hg : forall u, head_in is_digit (g +:+ String "x" u) = false).
  { intros u. eapply head_in_app; [exact Ag | reflexivity | apply Hx]. }
  eapply takes_seq; [reflexivity | | ].
  { apply takes_class; [exact Ad1 | | destruct d1; [contradiction | simpl; lia]].
    rewrite !app_assoc_str.
    destruct Hsep as [[-> ->]|[->| ->]]; rewrite ?app_nil_l_str;
      [apply Hg | reflexivity | reflexivity]. }
  eapply takes_seq; [reflexivity | | ].
  { destruct Hsep as [[-> ->]|[->| ->]].
    - apply takes_opt_skip. rewrite !app_assoc_str, !app_nil_l_str.
      apply (fails_head n0 (fun c => mem_ascii c ".p")); [reflexivity|].
      eapply head_in_app; [exact Ag | reflexivity | reflexivity].
    - apply takes_opt, takes_cls. reflexivity.
    - apply takes_opt, takes_cls. reflexivity. }
  eapply takes_seq; [reflexivity | | ].
  { apply takes_class; [exact Ad2 | | lia]. rewrite !app_assoc_str. apply Hg. }
  eapply takes_seq; [reflexivity | | ].
  { apply takes_class; [exact Ag | reflexivity | lia]. }
  eapply takes_seq; [reflexivity | | ].
  { apply takes_cls. reflexivity. }
  apply takes_class; [exact Ab | exact Ht | destruct b; [contradiction | simpl; lia]].
Qed.

Lemma fraction_token_head P d1 sep d2 g b t :
  fraction_parts d1 sep d2 g b ->
  implies is_digit (fun c => negb (P c)) = true ->
  head_in P (fraction_token d1 sep d2 g b +:+ t) = false.
Proof.
  intros (Hd1 & Ad1 & _) HP. unfold fraction_token.
  rewrite !app_assoc_str. now apply head_digit_not.
Qed.

(** The dose specifier of a target reads [_] and the whole token through
    the fraction form. *)
Lemma takes_dose_specifier n0 d1 sep d2 g b t e :
  fraction_parts d1 sep d2 g b -> head_in is_digit t = false ->
  takes n0 dose_specifier ("_" +:+ fraction_token d1 sep d2 g b) t e
    (<["DoseSpecifier" := fraction_token d1 sep d2 g b]>
       (<["DoseFractionation" := fraction_token d1 sep d2 g b]> e)).
Proof.
  intros Hparts Ht. unfold dose_specifier. apply takes_opt. simpl seq.
  eapply takes_seq; [reflexivity | apply takes_cls; reflexivity |].
  apply takes_cap. simpl alts.
  apply takes_alt_r.
  { apply (fails_head n0 (fun c => mem_ascii c "HLM")); [reflexivity|].
    now apply fraction_token_head. }
  apply takes_alt_l. now apply takes_dose_fraction.
Qed.

(** Neither a modality nor a structure indicator can start with a digit. *)
Lemma skips_modality n0 d1 sep d2 g b t e :
  fraction_parts d1 sep d2 g b ->
  takes n0 modality_pat "" ("_" +:+ fraction_token d1 sep d2 g b +:+ t) e e.
Proof.
  intros Hparts. unfold modality_pat. apply takes_opt_skip. simpl seq.
  rewrite app_cons_str, app_nil_l_str. apply fails_cat_cls.
  apply (fails_head n0 (in_range "A" "Z")); [reflexivity|].
  now apply fraction_token_head.
Qed.

Lemma skips_struct_ind n0 d1 sep d2 g b t e :
  fraction_parts d1 sep d2 g b ->
  takes n0 struct_ind_pat "" ("_" +:+ fraction_token d1 sep d2 g b +:+ t) e e.
Proof.
  intros Hparts. unfold struct_ind_pat. apply takes_opt_skip. simpl seq.
  rewrite app_cons_str, app_nil_l_str. apply fails_cat_cls, fails_cat_notahead.
  apply (fails_head n0 (in_range "A" "Z")); [reflexivity|].
  now apply fraction_token_head.
Qed.

(** What follows the base target in the pattern, on a fraction token that
    ends the name. *)
Lemma takes_after_base n0 d1 sep d2 g b e :
  fraction_parts d1 sep d2 g b ->
  takes n0
    (seq [ modality_pat; struct_ind_pat; dose_specifier; target_crop_pat;
           target_custom_qualifier_pat ])
    ("_" +:+ fraction_token d1 sep d2 g b) "" e
    (<["DoseSpecifier" := fraction_token d1 sep d2 g b]>
       (<["DoseFractionation" := fraction_token d1 sep d2 g b]> e)).
Proof.
  intros Hparts. simpl seq.
  eapply (takes_seq _ _ _ _ ""); [reflexivity | | ].
  { exact (skips_modality n0 d1 sep d2 g b "" e Hparts). }
  eapply (takes_seq _ _ _ _ ""); [reflexivity | | ].
  { exact (skips_struct_ind n0 d1 sep d2 g b "" e Hparts). }
  eapply (takes_seq _ _ _ _ _ ""); [symmetry; apply app_nil_r_str | | ].
  { now apply takes_dose_specifier. }
  eapply (takes_seq _ _ _ _ "" ""); [reflexivity | | ].
  { apply takes_opt_skip, fails_empty. reflexivity. }
  apply takes_opt_skip, fails_empty. reflexivity.
Qed.

(** The classifier and the number of the base target are both read as
    empty before the [_]. *)
Lemma takes_classifier_number n0 t e :
  takes n0
    (seq [ opt (Cap "TargetClassifier" target_classifier_pat);
           opt (Cap "TargetNumber" target_number_pat) ])
    "" (String "_" t) e
    (<["TargetNumber" := ""]> (<["TargetClassifier" := ""]> e)).
Proof.
  simpl seq. eapply (takes_seq _ _ _ _ "" ""); [reflexivity | | ].
  - apply takes_opt, takes_cap. unfold target_classifier_pat.
    apply takes_opt_skip.
    apply (fails_head n0 (in_range "a" "z")); reflexivity.
  - apply takes_opt, takes_cap. unfold target_number_pat.
    apply takes_opt_skip.
    apply (fails_head n0 is_digit); reflexivity.
Qed.

Lemma target_type_cases tt :
  In tt (fst <$> target_type_def) ->
  tt = "GTV" \/ tt = "CTV" \/ tt = "PTV" \/ tt = "ITV" \/ tt = "IGTV"
  \/ tt = "ICTV" \/ tt = "PTV!".
Proof. simpl. intuition auto. Qed.

(** The type alternation reads the type of the name, provided what
    follows the type cannot go on from a [!]: [PTV] is tried before
    [PTV!]. *)
Lemma run_target_type n0 tt s e k res :
  In tt (fst <$> target_type_def) ->
  (forall t e', k (String "!" t) e' = None) ->
  k s e = Some res ->
  run n0 target_type_pat (tt +:+ s) e k = Some res.
Proof.
  intros Htt Hbang Hk. apply target_type_cases in Htt.
  unfold target_type_pat.
  destruct Htt as [->|[->|[->|[->|[->|[->| ->]]]]]];
    rewrite !app_cons_str, app_nil_l_str; simpl; rewrite ?Hbang, Hk; reflexivity.
Qed.

Lemma target_type_first tt :
  In tt (fst <$> target_type_def) ->
  exists c tt', tt = String c tt' /\ mem_ascii c "zZ_" = false.
Proof.
  intros Htt. apply target_type_cases in Htt.
  destruct Htt as [->|[->|[->|[->|[->|[->| ->]]]]]]; eauto.
Qed.

(** A name made of a target type, [_] and a dose token with a fraction
    part is matched as a target, and the whole token is what the groups
    [DoseSpecifier] and [DoseFractionation] capture. *)
Lemma fraction_names_first_match (tt d1 sep d2 g b : string) :
  In tt (fst <$> target_type_def) ->
  fraction_parts d1 sep d2 g b ->
  exists m,
    fullmatch structure_pat (tt +:+ "_" +:+ fraction_token d1 sep d2 g b) = Some m
    /\ m !! "TargetType" = Some tt
    /\ m !! "DoseSpecifier" = Some (fraction_token d1 sep d2 g b)
    /\ m !! "DoseFractionation" = Some (fraction_token d1 sep d2 g b)
    /\ m !! "NumericDose" = None.
Proof.
  intros Htt Hparts.
  set (tok := fraction_token d1 sep d2 g b).
  set (m := <["DoseSpecifier" := tok]>
              (<["DoseFractionation" := tok]>
                 (<["BaseTarget" := tt]>
                    (<["TargetNumber" := ""]>
                       (<["TargetClassifier" := ""]>
                          (<["TargetType" := tt]> (∅ : groups))))))).
  exists m. split.
  2: { unfold m. repeat split;
         repeat (rewrite lookup_insert_ne by discriminate);
         rewrite ?lookup_insert_eq, ?lookup_empty; reflexivity. }
  unfold fullmatch.
  set (w := tt +:+ "_" +:+ tok). set (n0 := String.length w).
  unfold structure_pat, all_structure_pattern. simpl alts.
  rewrite run_alt.
  destruct (target_type_first tt Htt) as (c & tt' & Ett & Hc).
  assert (Hne : run n0 not_evaluated_pat w ∅ end_of_name = None).
  { unfold w. rewrite Ett, app_cons_str. now apply run_not_evaluated_fails. }
  rewrite Hne, run_alt.
  assert (Htarget : run n0 target_pattern w ∅ end_of_name = Some m);
    [|now rewrite Htarget].
  unfold target_pattern, base_target_pat.
  change (seq (Cap "BaseTarget" ?x :: ?rest)) with (Cat (Cap "BaseTarget" x) (seq rest)).
  change (seq (Cap "TargetType" ?x :: ?rest)) with (Cat (Cap "TargetType" x) (seq rest)).
  rewrite run_cat, run_cap, run_cat, run_cap.
  unfold w. apply run_target_type; [exact Htt | | ].
  - (* nothing after the type can read a [!] *)
    intros t e'. match goal with |- ?lhs = None => destruct lhs as [res|] eqn:Hrun end;
      [exfalso | reflexivity].
    eapply (run_blocked _ (is_not "!")) in Hrun as [e1 Hrun]; [|reflexivity..].
    eapply (run_blocked _ (is_not "!")) in Hrun as [e2 Hrun]; [|reflexivity..].
    discriminate.
  - (* the path through the empty classifier and number to the dose *)
    apply (takes_classifier_number n0 tok). cbv beta.
    change (String "_" tok) with ("_" +:+ tok).
    rewrite !captured_text.
    apply (takes_end n0 _ _ _ _ (takes_after_base n0 d1 sep d2 g b _ Hparts)).
    reflexivity.
Qed.

(** C7: in the dose alternation the fraction form is tried before the
    plain numeric form.  So every name made of a target type, [_] and a
    dose token with a fraction part (such as [PTV_2000x3]) is matched with
    the whole token in [DoseSpecifier] and in [DoseFractionation], and
    with [NumericDose] unset.  And whatever name the combined pattern
    matches with a dose specifier [d]: the name reads [pre_d post] where
    [post] is empty or starts with [-] or [^], so the capture never stops
    short of an [x] part; and [d] holds an [x] exactly when it is the
    group [DoseFractionation] that captured it, [NumericDose] taking no
    part then. *)
Theorem dose_fraction_before_numeric :
  (forall tt d1 sep d2 g b : string,
     In tt (fst <$> target_type_def) ->
     fraction_parts d1 sep d2 g b ->
     exists m,
       fullmatch structure_pat (tt +:+ "_" +:+ fraction_token d1 sep d2 g b)
       = Some m
       /\ m !! "TargetType" = Some tt
       /\ m !! "DoseSpecifier" = Some (fraction_token d1 sep d2 g b)
       /\ m !! "DoseFractionation" = Some (fraction_token d1 sep d2 g b)
       /\ m !! "NumericDose" = None)
  /\ (forall (name : string) (m : groups) (d : string),
        fullmatch structure_pat name = Some m ->
        m !! "DoseSpecifier" = Some d ->
        (exists pre post, name = pre +:+ "_" +:+ d +:+ post
           /\ (post = "" \/ starts_with_any "-^" post = true))
        /\ (if mem_ascii "x" d
            then m !! "DoseFractionation" = Some d /\ m !! "NumericDose" = None
            else m !! "DoseFractionation" = None)).
Proof.
  split.
  { intros tt d1 sep d2 g b Htt Hparts.
    destruct (fraction_names_first_match tt d1 sep d2 g b Htt Hparts)
      as (m & Hm & Htype & Hds & Hdf & Hnd).
    exists m. auto. }
  intros name m d.
  intros Hm Hd. apply fullmatch_parses in Hm.
  unfold structure_pat, all_structure_pattern in Hm. simpl alts in Hm.
  assert (Hno : forall r, parses r name ∅ m ->
                          mentions "DoseSpecifier" r = false -> False).
  { intros r Hr Hf. rewrite (parses_frame _ _ _ _ _ Hr Hf), lookup_empty in Hd.
    discriminate. }
  apply parses_alt_inv in Hm as [H|H]; [exfalso; eapply Hno; eauto; reflexivity|].
  apply parses_alt_inv in H as [H|H];
    [|exfalso; apply parses_alt_inv in H as [H|H]; eapply Hno; eauto; reflexivity].
  clear Hno. unfold target_pattern in H. simpl seq in H.
  apply parses_cat_inv in H as (c1 & ? & e1 & -> & H1 & H).
  apply parses_cat_inv in H as (c2 & ? & e2 & -> & H2 & H).
  apply parses_cat_inv in H as (c3 & ? & e3 & -> & H3 & H).
  apply parses_cat_inv in H as (c4 & ? & e4 & -> & H4 & H).
  apply parses_cat_inv in H as (c5 & c6 & e5 & -> & H5 & H6).
  assert (Hpre : forall g,
            mentions g base_target_pat = false -> mentions g modality_pat = false ->
            mentions g struct_ind_pat = false -> e3 !! g = None).
  { intros g G1 G2 G3.
    now rewrite (parses_frame _ _ _ _ _ H3 G3), (parses_frame _ _ _ _ _ H2 G2),
      (parses_frame _ _ _ _ _ H1 G1), lookup_empty. }
  assert (Hpost : forall g,
            mentions g target_crop_pat = false ->
            mentions g target_custom_qualifier_pat = false -> m !! g = e4 !! g).
  { intros g G5 G6.
    now rewrite (parses_frame _ _ _ _ _ H6 G6), (parses_frame _ _ _ _ _ H5 G5). }
  rewrite Hpost in Hd by reflexivity. rewrite !Hpost by reflexivity.
  pose proof (tail_after_dose _ _ _ _ _ H5 H6) as Htail.
  unfold dose_specifier in H4.
  apply parses_opt_inv in H4 as [[-> ->]|H4].
  { rewrite Hpre in Hd by reflexivity. discriminate. }
  simpl seq in H4.
  apply parses_cat_inv in H4 as (u & v & e3' & -> & Hu & Hv).
  apply parses_chr in Hu as [-> ->].
  apply parses_cap_inv in Hv as (ex & Hv & ->).
  rewrite lookup_insert_eq in Hd. injection Hd as ->.
  rewrite !lookup_insert_ne by discriminate.
  split.
  { exists (c1 +:+ c2 +:+ c3), (c5 +:+ c6). split; [|exact Htail].
    now rewrite !app_assoc_str. }
  simpl alts in Hv.
  apply parses_alt_inv in Hv as [Hv|Hv]; [|apply parses_alt_inv in Hv as [Hv|Hv]].
  - apply rel_dose_no_x in Hv as [-> ->]. now apply Hpre.
  - apply dose_fraction_has_x in Hv as (-> & -> & ->). split; [reflexivity|].
    now apply Hpre.
  - apply numeric_dose_no_x in Hv as [-> ->]. now apply Hpre.
Qed.

Lemma dose_fraction_before_numeric_witness :
  (exists m,
     fullmatch structure_pat "PTV_2000x3" = Some m
     /\ m !! "TargetType" = Some "PTV"
     /\ m !! "DoseSpecifier" = Some "2000x3"
     /\ m !! "DoseFractionation" = Some "2000x3"
     /\ m !! "NumericDose" = None)
  /\ (exists pre post, "PTV_2000x3" = pre +:+ "_" +:+ "2000x3" +:+ post
        /\ (post = "" \/ starts_with_any "-^" post = true)).
Proof.
  assert (Htt : In "PTV" (fst <$> target_type_def))
    by (right; right; left; reflexivity).
  assert (Hparts : fraction_parts "2000" "" "" "" "3").
  { unfold fraction_parts. repeat split; try discriminate; try reflexivity.
    left. split; reflexivity. }
  assert (H1 : fullmatch structure_pat "PTV_2000x3" = Some (classify "PTV_2000x3"))
    by (vm_compute; reflexivity).
  assert (H2 : classify "PTV_2000x3" !! "DoseSpecifier" = Some "2000x3")
    by (vm_compute; reflexivity).
  split.
  - exact (proj1 dose_fraction_before_numeric "PTV" "2000" "" "" "" "3" Htt Hparts).
  - exact (proj1 (proj2 dose_fraction_before_numeric "PTV_2000x3" _ "2000x3" H1 H2)).
Defined.

(** The order of the dose alternation at work: with nothing to anchor the
    end of the match, the module's order reads all of [2000x3] through
    the fraction form, and the two forms in the other order would stop
    after [2000]. *)
Example dose_alternation_order :
  run 6 (alts [rel_dose_pat; dose_fraction_pat; numeric_dose_pat]) "2000x3" ∅
      (fun _ e => Some e)
  = Some (<["DoseFractionation" := "2000x3"]> ∅)
  /\ run 6 (alts [rel_dose_pat; numeric_dose_pat; dose_fraction_pat]) "2000x3" ∅
         (fun _ e => Some e)
     = Some (<["NumericDose" := "2000"]> ∅).
Proof. split; vm_compute; reflexivity. Qed.

(** Target names of the standard with a dose specifier, through the
    combined pattern: the fraction forms come out in [DoseFractionation],
    the plain forms in [NumericDose]. *)
Example target_dose_examples :
  classify "PTV_Liver_2000x3" !! "DoseFractionation" = Some "2000x3"
  /\ classify "PTV_Liver_2000x3" !! "StructureIndicator" = Some "Liver"
  /\ classify "PTV_Liver_20Gyx3" !! "DoseFractionation" = Some "20Gyx3"
  /\ classify "PTV_Liver_20Gyx3" !! "NumericDose" = None
  /\ classify "PTV_50p4Gy" !! "NumericDose" = Some "50p4Gy"
  /\ classify "PTV_50p4Gy" !! "DoseFractionation" = None
  /\ classify "PTV_Eval_7000-08" !! "NumericDose" = Some "7000"
  /\ classify "PTV_Eval_7000-08" !! "ExternalCrop" = Some "-08"
  /\ classify "PTV_High" !! "RelativeDose" = Some "High".
Proof. repeat split; vm_compute; reflexivity. Qed.

(** ** The dose normaliser *)

(** The two numbers of the examples, as binary64 values: 5040 and 6000
    are exact, with 53-bit mantissas. *)
Example float_of_Z_values :
  float_of_Z 5040 = S754_finite false (5040 * 2 ^ 40) (-40)
  /\ float_of_Z 6000 = S754_finite false (6000 * 2 ^ 40) (-40)
  /\ py_float "50.4" = Some (S754_finite false 7093169413108531 (-47)).
Proof. repeat split; vm_compute; reflexivity. Qed.

(** C2: the dose normaliser on the five example texts: [50p4Gy] is 5040
    cGy with no fraction count, [2000x3] and [20Gyx3] are 6000 cGy in 3
    fractions, and the empty text and [abc] come back unchanged with no
    fraction count. *)
Theorem to_cgy_examples :
  to_cgy (Some "50p4Gy") = Returns (mk_dose (DoseNumber (float_of_Z 5040)) None)
  /\ to_cgy (Some "2000x3") = Returns (mk_dose (DoseNumber (float_of_Z 6000)) (Some 3%Z))
  /\ to_cgy (Some "20Gyx3") = Returns (mk_dose (DoseNumber (float_of_Z 6000)) (Some 3%Z))
  /\ to_cgy (Some "") = Returns (mk_dose (DoseText "") None)
  /\ to_cgy (Some "abc") = Returns (mk_dose (DoseText "abc") None).
Proof. repeat split; vm_compute; reflexivity. Qed.

Lemma split_once_nonempty (text dose_str part : string) :
  split_once "x" (replace_char "p" "." text) = (dose_str, Some part) ->
  String.eqb text "" = false.
Proof. destruct text; [discriminate | reflexivity]. Qed.

(** C10: when the text after the [x] is the digit [0] and the text before
    it gives the dose [d], [to_cgy] returns 0 fractions and the dose [d]
    itself as the total dose: no multiplication takes place. *)
Theorem to_cgy_zero_fractions (text dose_str : string) (d : float) :
  split_once "x" (replace_char "p" "." text) = (dose_str, Some "0") ->
  dose_of dose_str = Some d ->
  to_cgy (Some text) = Returns (mk_dose (DoseNumber d) (Some 0%Z)).
Proof.
  intros Hsplit Hdose. unfold to_cgy.
  rewrite (split_once_nonempty _ _ _ Hsplit), Hsplit, Hdose.
  reflexivity.
Qed.

Lemma to_cgy_zero_fractions_witness :
  to_cgy (Some "200x0") = Returns (mk_dose (DoseNumber (float_of_Z 200)) (Some 0%Z)).
Proof.
  apply (to_cgy_zero_fractions "200x0" "200" (float_of_Z 200));
    vm_compute; reflexivity.
Defined.

(** ** The test helpers *)

(** C9: [no_spaces] never returns a [bool]: it returns the integer [-2]
    for a text with a space and [-1] for a text without one, and both are
    true in a test. *)
Theorem no_spaces_always_truthy (s : string) :
  no_spaces s = PyInt (if mem_ascii " " s then -2 else -1)
  /\ truthy (no_spaces s) = true
  /\ no_spaces s <> PyBool false.
Proof.
  unfold no_spaces. destruct (mem_ascii " " s); simpl; repeat split; discriminate.
Qed.

Lemma no_dup_truthy (structures : list string) : truthy (no_dup structures) = true.
Proof. unfold no_dup. now destruct (_ <? _). Qed.

(** C8: on a list with the case-insensitive duplicate [Lungs], [lungs],
    [no_dup] returns [-2], which a test takes for true, so the duplicate
    is not flagged; on [Lungs], [Lung] it returns [-1]. *)
Theorem no_dup_misses_duplicate :
  no_dup ["Lungs"; "lungs"] = PyInt (-2)
  /\ truthy (no_dup ["Lungs"; "lungs"]) = true
  /\ no_dup ["Lungs"; "Lung"] = PyInt (-1).
Proof. repeat split; vm_compute; reflexivity. Qed.

(** C4: [not_evaluated] answers [False] for a name that starts with a
    lower-case [z], which the pattern [not_evaluated_pat] takes for a
    name that is not evaluated. *)
Theorem not_evaluated_misses_lowercase_z :
  not_evaluated "zPTV1" = Some false
  /\ classify "zPTV1" !! "NotEvalChar" = Some "z"
  /\ classify "zPTV1" !! "NotEvaluated" = Some "PTV1".
Proof. repeat split; vm_compute; reflexivity. Qed.

(** ** The reduction steps *)

(** C5: the category step does not fire on [Spc_Bowel]: the code [Spc] of
    the category table is not among the alternatives of
    [major_category_pat], so no category is extracted and the remainder
    stays the whole name.  Of the ten codes of the table, the step fires
    on the nine others. *)
Theorem major_category_misses_spc :
  In "Spc" (fst <$> category_def)
  /\ search major_category_pat "Spc_Bowel" = None
  /\ cells (extract_name_group (initial_names "Spc_Bowel") major_category_pat
              "StructureCategory" true) !! "StructureCategory" = None
  /\ cells (extract_name_group (initial_names "Spc_Bowel") major_category_pat
              "StructureCategory" true) !! "Remainder" = Some "Spc_Bowel"
  /\ cells (parse_non_target "Spc_Bowel") !! "StructureCategory" = None
  /\ List.filter (fun code => fires major_category_pat (code +:+ "_Bowel"))
                 (fst <$> category_def)
     = ["A"; "V"; "LN"; "CN"; "Glnd"; "Bone"; "Musc"; "VB"; "Sinus"].
Proof. repeat split; vm_compute; auto 10. Qed.

(** C6: the spatial step does not fire on [Lung_RML]: the code [RML] of
    the spatial table is not among the alternatives of [spatial_pat], so
    no spatial indicator is extracted, while [Lung_RUL] gives [RUL].  Of
    the fourteen codes of the table, the step fires on the thirteen
    others. *)
Theorem spatial_misses_rml :
  In "RML" (fst <$> spatial_def)
  /\ search spatial_pat "Lung_RML" = None
  /\ cells (parse_non_target "Lung_RML") !! "SpatialIndicator" = None
  /\ cells (parse_non_target "Lung_RUL") !! "SpatialIndicator" = Some "RUL"
  /\ List.filter (fun code => fires spatial_pat ("Lung_" +:+ code))
                 (fst <$> spatial_def)
     = ["L"; "R"; "A"; "P"; "I"; "S"; "RUL"; "RLL"; "LUL"; "LLL";
        "NAdj"; "Dist"; "Prox"].
Proof. repeat split; vm_compute; auto 15. Qed.

(** A name of the last class has no dose specifier, and its group
    [StructureName] holds the whole name. *)
Lemma basic_has_no_dose name m :
  fullmatch structure_pat name = Some m ->
  is_Some (m !! "StructureName") ->
  m !! "DoseSpecifier" = None /\ m !! "StructureName" = Some name.
Proof.
  intros Hm [v Hv]. apply fullmatch_parses in Hm.
  unfold structure_pat, all_structure_pattern in Hm. simpl alts in Hm.
  assert (Hno : forall r, parses r name ∅ m ->
                          mentions "StructureName" r = false -> False).
  { intros r Hr Hf. rewrite (parses_frame _ _ _ _ _ Hr Hf), lookup_empty in Hv.
    discriminate. }
  apply parses_alt_inv in Hm as [H|H]; [exfalso; eapply Hno; eauto; reflexivity|].
  apply parses_alt_inv in H as [H|H]; [exfalso; eapply Hno; eauto; reflexivity|].
  apply parses_alt_inv in H as [H|H]; [exfalso; eapply Hno; eauto; reflexivity|].
  split.
  - now rewrite (parses_frame _ _ _ _ "DoseSpecifier" H eq_refl), lookup_empty.
  - unfold basic_structure_pat in H. apply parses_cap_inv in H as (e1 & _ & ->).
    apply lookup_insert_eq.
Qed.

(** C3: for a name classified BasicOAR the script returns a row, the
    reduction steps ran on the whole name, and the row is flagged
    [Unmatched] exactly when its final [Remainder] is a non-empty text;
    an empty or missing remainder leaves it unflagged. *)
Theorem unmatched_iff_remainder (structure : string) :
  is_Some (classify structure !! "StructureName") ->
  exists p, parse_structure structure = Returns p
    /\ non_target p = Some (parse_non_target structure)
    /\ (Unmatched p = true <->
        exists text, final_remainder p = Some text /\ text <> "").
Proof.
  intros Hsn. unfold parse_structure.
  assert (Hrow : classify structure !! "DoseSpecifier" = None
                 /\ classify structure !! "StructureName" = Some structure).
  { unfold classify in *. destruct (fullmatch structure_pat structure) eqn:Hm.
    - eapply basic_has_no_dose; eauto.
    - rewrite lookup_empty in Hsn. destruct Hsn as [? Hsn]. discriminate. }
  destruct Hrow as [Hdose Hname].
  rewrite Hdose, Hname. simpl to_cgy. cbv iota beta.
  assert (Hne : bool_decide (classify structure = ∅) = false).
  { apply bool_decide_eq_false. intros Heq. rewrite Heq, lookup_empty in Hname.
    discriminate. }
  rewrite Hne. generalize (parse_non_target structure). intros row.
  eexists. split; [reflexivity|]. split; [reflexivity|].
  unfold final_remainder. cbn [Unmatched non_target andb].
  destruct (cells row !! "Remainder") as [text|].
  - destruct text as [|c text]; simpl.
    + split; [discriminate|]. intros (t & Ht & Hn). now injection Ht as <-.
    + split; [|reflexivity]. intros _. eexists. split; [reflexivity | discriminate].
  - split; [discriminate|]. intros (t & Ht & _). discriminate.
Qed.

Lemma unmatched_iff_remainder_witness :
  is_Some (classify "X1" !! "StructureName")
  /\ exists p, parse_structure "X1" = Returns p
       /\ non_target p = Some (parse_non_target "X1")
       /\ (Unmatched p = true <->
           exists text, final_remainder p = Some text /\ text <> "").
Proof.
  assert (H : is_Some (classify "X1" !! "StructureName"))
    by (vm_compute; eexists; reflexivity).
  split; [exact H|]. exact (unmatched_iff_remainder "X1" H).
Defined.

(** The row of [X1], a name none of the steps reduces. *)
Example unmatched_example :
  exists p, parse_structure "X1" = Returns p
    /\ Unmatched p = true /\ final_remainder p = Some "X1".
Proof. eexists. split; [vm_compute; reflexivity|]. split; vm_compute; reflexivity. Qed.

(** The row of [Lungs], which the base-structure step consumes whole. *)
Example conformant_example :
  exists p, parse_structure "Lungs" = Returns p
    /\ Unmatched p = false /\ final_remainder p = Some "".
Proof. eexists. split; [vm_compute; reflexivity|]. split; vm_compute; reflexivity. Qed.
